(** * text_extractor.py: a shallow embedding and its checked properties

    The program lists the image files of a directory, sends each one to a
    remote vision model and writes the returned text to a report file and a
    summary file.  Everything outside the process (environment, file
    system, image decoder, remote service, clock) is a field of [world];
    everything the process changes (console, file system, number of
    remote calls issued) is a field of [state]. *)

From Stdlib Require Import QArith Qround Qabs Lqa Floats Uint63.
From stdpp Require Import base numbers list strings gmap sorting pretty.

Local Open Scope N_scope.

(** ** Python strings

    A Python 3 [str] is a sequence of Unicode code points; [len] counts
    code points, and comparison is lexicographic on code points. *)

Module PyStr.

Abbreviation pystr := (list N).

(** An ASCII literal of the source, as code points. *)
Definition lit (s : string) : pystr :=
  Ascii.N_of_ascii <$> String.list_ascii_of_string s.

(** [str(n)] and [f"{n}"] for a non-negative [int]. *)
Definition str_of_nat (n : nat) : pystr := lit (pretty n).

(** [c * n] for a one-character string [c]. *)
Definition times (c : N) (n : nat) : pystr := replicate n c.

(** [str.isspace] on one code point: the characters that [str.split()]
    and [str.strip()] treat as white space. *)
Definition isspace (c : N) : bool :=
  ((9 <=? c) && (c <=? 13)) || ((28 <=? c) && (c <=? 32))
  || (c =? 133) || (c =? 160) || (c =? 5760)
  || ((8192 <=? c) && (c <=? 8202))
  || (c =? 8232) || (c =? 8233) || (c =? 8239) || (c =? 8287)
  || (c =? 12288).

(** [str.lower] on the ASCII range; code points above 127 are kept as
    they are (the Unicode case tables are not part of the model). *)
Definition lower_char (c : N) : N :=
  if (65 <=? c) && (c <=? 90) then c + 32 else c.

Definition lower (s : pystr) : pystr := lower_char <$> s.

(** [s.endswith(suffix)] *)
Definition endswith (s suffix : pystr) : bool :=
  bool_decide (drop (length s - length suffix)%nat s = suffix).

(** [s.lstrip()], [s.rstrip()], [s.strip()] *)
Fixpoint lstrip (s : pystr) : pystr :=
  match s with
  | [] => []
  | c :: s' => if isspace c then lstrip s' else s
  end.

Definition rstrip (s : pystr) : pystr := reverse (lstrip (reverse s)).

Definition strip (s : pystr) : pystr := rstrip (lstrip s).

(** [s.split()]: the maximal runs of non-space characters, in order.
    [tok] is the run being read, if any. *)
Fixpoint split_from (tok : option pystr) (s : pystr) : list pystr :=
  match s with
  | [] => match tok with Some t => [t] | None => [] end
  | c :: s' =>
      if isspace c then
        match tok with
        | Some t => t :: split_from None s'
        | None => split_from None s'
        end
      else split_from (Some (default [] tok ++ [c])) s'
  end.

Definition split (s : pystr) : list pystr := split_from None s.

(** [s[:n]] for a non-negative [n]. *)
Definition slice_to (n : nat) (s : pystr) : pystr := take n s.

(** [a < b] and [a <= b] on [str]: lexicographic on code points. *)
Fixpoint str_leb (a b : pystr) : bool :=
  match a, b with
  | [], _ => true
  | _ :: _, [] => false
  | x :: a', y :: b' =>
      if x <? y then true else if y <? x then false else str_leb a' b'
  end.

Definition str_le (a b : pystr) : Prop := str_leb a b = true.

#[global] Instance str_le_dec : RelDecision str_le.
Proof. intros a b. unfold str_le. apply _. Defined.

(** [list.sort()] on a list of [str].  The order is total and
    antisymmetric, so every correct sort returns the same list. *)
Definition sort (l : list pystr) : list pystr := merge_sort str_le l.

End PyStr.
Import PyStr.

(** ** Paths ([os.path] on a POSIX system) *)

Module Path.

Definition sep : N := 47.

(** [os.path.join(a, b)] *)
Definition join (a b : pystr) : pystr :=
  match b with
  | c :: _ => if c =? sep then b
              else if bool_decide (a = []) || endswith a [sep] then a ++ b
              else a ++ [sep] ++ b
  | [] => if bool_decide (a = []) || endswith a [sep] then a ++ b
          else a ++ [sep] ++ b
  end.

(** [os.path.basename(p)]: what follows the last separator. *)
Fixpoint basename (p : pystr) : pystr :=
  match p with
  | [] => []
  | c :: p' =>
      if bool_decide (sep ∈ p') then basename p'
      else if c =? sep then p' else p
  end.

(** [head.rstrip('/')], on the reversed string. *)
Fixpoint drop_seps (s : pystr) : pystr :=
  match s with
  | [] => []
  | c :: s' => if c =? sep then drop_seps s' else s
  end.

(** [os.path.dirname(p)]: what precedes the base name, without its
    trailing separators unless it consists of separators only. *)
Definition dirname (p : pystr) : pystr :=
  let head := take (length p - length (basename p))%nat p in
  if bool_decide (head = replicate (length head) sep) then head
  else reverse (drop_seps (reverse head)).

End Path.

(** ** Exceptions and results *)

(** A raised exception: its class name and what [str(e)] gives.  Every
    exception of the model is an instance of [Exception]; signals such as
    [KeyboardInterrupt] are outside it. *)
Record exn := { exn_class : pystr; exn_str : pystr }.

Inductive result (A : Type) : Type :=
| Ok (a : A)
| Raise (e : exn).
Arguments Ok {A} a.
Arguments Raise {A} e.

(** ** The utf-8 codec of the output files

    [open(..., 'w', encoding='utf-8')] encodes what is written with the
    strict error handler: a string with a surrogate code point (such as
    [os.listdir] gives for a file name with an undecodable byte) is
    refused with a [UnicodeEncodeError]. *)
Module Codec.

Definition is_surrogate (c : N) : bool := (55296 <=? c) && (c <=? 57343).

Definition encodable (s : pystr) : bool :=
  forallb (λ c, negb (is_surrogate c)) s.

(** The position of the first surrogate of [s]. *)
Fixpoint first_surrogate (s : pystr) : nat :=
  match s with
  | [] => 0
  | c :: s' => if is_surrogate c then 0 else S (first_surrogate s')
  end.

(** The length of the run of surrogates [s] starts with. *)
Fixpoint surrogate_run (s : pystr) : nat :=
  match s with
  | [] => 0
  | c :: s' => if is_surrogate c then S (surrogate_run s') else 0
  end.

Definition hex_digit (d : N) : N := if d <? 10 then 48 + d else 87 + d.

(** ['%04x' % c] for [c] below 65536 *)
Definition hex4 (c : N) : pystr :=
  [hex_digit (c / 4096); hex_digit ((c / 256) mod 16);
   hex_digit ((c / 16) mod 16); hex_digit (c mod 16)].

(** The exception the codec raises for [s], with [str(e)] as Python
    words it: one character is shown, a longer run is given by its
    first and last position. *)
Definition encode_error (s : pystr) : exn :=
  let start := first_surrogate s in
  let run := surrogate_run (drop start s) in
  {| exn_class := lit "UnicodeEncodeError";
     exn_str :=
       if (run =? 1)%nat then
         lit "'utf-8' codec can't encode character '\u"
         ++ hex4 (default 0 (s !! start))
         ++ lit "' in position " ++ str_of_nat start
         ++ lit ": surrogates not allowed"
       else
         lit "'utf-8' codec can't encode characters in position "
         ++ str_of_nat start ++ lit "-" ++ str_of_nat (start + run - 1)
         ++ lit ": surrogates not allowed" |}.

End Codec.

(** ** Images (PIL) *)

Record image := { mode : pystr; width : Z; height : Z }.

(** What [base64.b64encode(buffered.getvalue()).decode('utf-8')] returns.
    Pixels and the JPEG bit stream are not modelled: a payload is
    identified by the image a JPEG decoder reads back from it. *)
Record jpeg_b64 := { decoded : image }.

(** ** Floating-point arithmetic

    Pillow computes the thumbnail size with Python floats.  The size
    rule below is written over an [arithmetic]: a type of numbers, the
    rational each one stands for, the conversion from [int] and the
    rounded operations.  [binary64] is the arithmetic of the program
    (IEEE 754 double precision, as Rocq's primitive floats compute it);
    [exact] is the arithmetic without rounding. *)
Module Float.

Record arithmetic := {
  num : Type;
  value : num → Q;
  of_int : Z → num;
  div : num → num → num;
  mul : num → num → num;
  sub : num → num → num
}.

(** The rational a finite double stands for. *)
Definition float_value (f : float) : Q :=
  match Prim2SF f with
  | S754_finite s m e =>
      let n := if s then Z.neg m else Z.pos m in
      if (0 <=? e)%Z then inject_Z (n * 2 ^ e)
      else Qmake n (Z.to_pos (2 ^ (- e)))
  | _ => 0%Q
  end.

(** [float(z)] for an [int] below 2^63 in absolute value. *)
Definition float_of_int (z : Z) : float :=
  if (z <? 0)%Z
  then PrimFloat.opp (PrimFloat.of_uint63 (Uint63.of_Z (- z)))
  else PrimFloat.of_uint63 (Uint63.of_Z z).

Definition binary64 : arithmetic :=
  {| num := float; value := float_value; of_int := float_of_int;
     div := PrimFloat.div; mul := PrimFloat.mul; sub := PrimFloat.sub |}.

Definition exact : arithmetic :=
  {| num := Q; value := λ q, q; of_int := inject_Z;
     div := Qdiv; mul := Qmult; sub := Qminus |}.

End Float.

Module PIL.

Import Float.
Local Open Scope Q_scope.

Section Thumbnail.

Context (A : arithmetic).

(** [round_aspect] of [Image.thumbnail]:
    [max(min(math.floor(number), math.ceil(number), key=key), 1)].
    [min] keeps its first argument unless the second has a smaller
    key; the keys are compared by their values. *)
Definition round_aspect (number : num A) (key : Z → Q) : Z :=
  let lo := Qfloor (value A number) in
  let hi := Qceiling (value A number) in
  Z.max (if Qle_bool (key lo) (key hi) then lo else hi) 1.

(** [preserve_aspect_ratio] of [Image.thumbnail], for the requested box
    [(x, y)]:
    [aspect = self.width / self.height], then, when [x / y >= aspect],
    [x = round_aspect(y * aspect, key=lambda n: abs(aspect - n / y))],
    else [y = round_aspect(x / aspect,
    key=lambda n: 0 if n == 0 else abs(aspect - x / n))]. *)
Definition preserve_aspect_ratio (x y : Z) (img : image)
  : option (Z * Z) :=
  if ((width img <=? x) && (height img <=? y))%Z then None
  else
    let aspect := div A (of_int A (width img)) (of_int A (height img)) in
    if Qle_bool (value A aspect) (value A (div A (of_int A x) (of_int A y)))
    then
      Some (round_aspect (mul A (of_int A y) aspect)
              (λ n, Qabs (value A (sub A aspect
                                     (div A (of_int A n) (of_int A y))))),
            y)
    else
      Some (x,
            round_aspect (div A (of_int A x) aspect)
              (λ n, if (n =? 0)%Z then 0
                    else Qabs (value A (sub A aspect
                                          (div A (of_int A x) (of_int A n)))))).

(** [img.thumbnail((x, y))]: the image resized to the computed size, or
    left alone when it already fits. *)
Definition thumbnail (x y : Z) (img : image) : image :=
  match preserve_aspect_ratio x y img with
  | None => img
  | Some (x', y') => {| mode := mode img; width := x'; height := y' |}
  end.

End Thumbnail.

(** [img.convert('RGB')] *)
Definition convert (m : pystr) (img : image) : image :=
  {| mode := m; width := width img; height := height img |}.

(** The modes the JPEG writer accepts. *)
Definition jpeg_modes : list pystr :=
  [lit "1"; lit "L"; lit "RGB"; lit "RGBX"; lit "CMYK"; lit "YCbCr"].

(** [img.save(buffered, format="JPEG")] followed by the encoding to
    text.  The writer refuses an empty image, a mode it cannot store
    and a side longer than 65500 pixels. *)
Definition save_jpeg (img : image) : result jpeg_b64 :=
  if ((width img <=? 0) || (height img <=? 0))%Z then
    Raise {| exn_class := lit "ValueError";
             exn_str := lit "cannot write empty image as JPEG" |}
  else if negb (bool_decide (mode img ∈ jpeg_modes)) then
    Raise {| exn_class := lit "OSError";
             exn_str := lit "cannot write mode " ++ mode img ++ lit " as JPEG" |}
  else if ((65500 <? width img) || (65500 <? height img))%Z then
    Raise {| exn_class := lit "OSError";
             exn_str := lit "encoder error -2 when writing image file" |}
  else Ok {| decoded := img |}.

End PIL.

(** ** The remote service

    [client.chat.completions.create(...)] returns an object read as
    [response.choices[0].message.content]; [content] may be [None]. *)
Record chat_message := { content : option pystr }.
Record choice := { message : chat_message }.
Record response := { choices : list choice }.

(** ** The world outside the process *)
Record world := {
  (** [os.getenv(name)] *)
  getenv : pystr → option pystr;
  (** [client.models.list()]: the exception it raises, if any *)
  models_list : option exn;
  (** [Image.open(path)]: the decoded image, or the decoder's error *)
  image_open : pystr → result image;
  (** [client.chat.completions.create] with the fixed model, instruction
      text and [max_tokens] of the source, for the given image; the
      first argument counts the calls issued before this one, so two
      calls for one image may answer differently *)
  chat_create : nat → jpeg_b64 → result response;
  (** [os.makedirs(path)]: the exception it raises, if any *)
  makedirs_error : pystr → option exn;
  (** [os.listdir(path)], in the order the file system gives *)
  listdir : pystr → result (list pystr);
  (** [datetime.now().strftime(format)] at the [k]-th reading of the
      clock by [main] *)
  now_strftime : nat → pystr → pystr
}.

(** ** What the process changes *)
Record state := {
  console : list pystr;        (** one entry per [print] *)
  dirs : gset pystr;           (** directories that exist *)
  files : gmap pystr pystr;    (** regular files and their content *)
  calls : nat                  (** remote extraction calls issued *)
}.

(** State and exceptions: a computation runs from a state to a result
    and a state; a raised exception keeps the effects made before it. *)
Definition M (A : Type) : Type := state → result A * state.

#[global] Instance M_ret : MRet M := λ A a st, (Ok a, st).

#[global] Instance M_bind : MBind M := λ A B f m st,
  match m st with
  | (Ok a, st') => f a st'
  | (Raise e, st') => (Raise e, st')
  end.

Definition raise {A} (cls msg : pystr) : M A :=
  λ st, (Raise {| exn_class := cls; exn_str := msg |}, st).

Definition lift {A} (r : result A) : M A := λ st, (r, st).

(** [try: body  except Exception as e: handler(e)] *)
Definition try_except {A} (body : M A) (handler : exn → M A) : M A :=
  λ st,
    match body st with
    | (Ok a, st') => (Ok a, st')
    | (Raise e, st') => handler e st'
    end.

Definition nl : pystr := [10].

Module IO.

(** [print(s)].  Standard output is taken to accept every string; on
    a console with a strict encoding this holds for the strings without
    surrogates. *)
Definition print (s : pystr) : M unit := λ st,
  (Ok (),
   {| console := console st ++ [s]; dirs := dirs st;
      files := files st; calls := calls st |}).

(** [os.path.exists(p)] *)
Definition path_exists (p : pystr) : M bool := λ st,
  (Ok (bool_decide (p ∈ dirs st) || bool_decide (p ∈ dom (files st))), st).

(** [os.makedirs(p)] *)
Definition makedirs (w : world) (p : pystr) : M unit := λ st,
  match makedirs_error w p with
  | Some e => (Raise e, st)
  | None =>
      (Ok (),
       {| console := console st; dirs := {[p]} ∪ dirs st;
          files := files st; calls := calls st |})
  end.

(** [repr(p)] as an [OSError] shows a file name, for a name made of
    printable characters other than the quote and the backslash. *)
Definition quoted (p : pystr) : pystr := [39] ++ p ++ [39].

(** [open(p, 'w', encoding='utf-8')]: the file is created or emptied.
    It fails when [p] is a directory, when the directory of [p] is a
    regular file and when that directory does not exist. *)
Definition open_w (p : pystr) : M pystr := λ st,
  if bool_decide (p ∈ dirs st) then
    (Raise {| exn_class := lit "IsADirectoryError";
              exn_str := lit "[Errno 21] Is a directory: " ++ quoted p |}, st)
  else if bool_decide (Path.dirname p = []) || bool_decide (Path.dirname p ∈ dirs st)
  then
    (Ok p,
     {| console := console st; dirs := dirs st;
        files := <[p := []]> (files st); calls := calls st |})
  else if bool_decide (Path.dirname p ∈ dom (files st)) then
    (Raise {| exn_class := lit "NotADirectoryError";
              exn_str := lit "[Errno 20] Not a directory: " ++ quoted p |}, st)
  else
    (Raise {| exn_class := lit "FileNotFoundError";
              exn_str := lit "[Errno 2] No such file or directory: "
                         ++ quoted p |}, st).

(** [f.write(s)] on the file opened at path [f]: [s] is appended when
    the codec accepts it; otherwise nothing of [s] is written and the
    codec's error is raised. *)
Definition write (f : pystr) (s : pystr) : M unit := λ st,
  if Codec.encodable s then
    (Ok (),
     {| console := console st; dirs := dirs st;
        files := alter (λ old, old ++ s) f (files st); calls := calls st |})
  else (Raise (Codec.encode_error s), st).

(** One remote call: the world answers the [calls]-th request. *)
Definition chat_completions_create (w : world) (img : jpeg_b64)
  : M response := λ st,
  (chat_create w (calls st) img,
   {| console := console st; dirs := dirs st;
      files := files st; calls := S (calls st) |}).

End IO.
Import IO.

(** ** The program

    The functions below follow [text_extractor.py] one by one; [script]
    at the end is the module as a whole.  [getenv] is the environment
    after [load_dotenv()]. *)

Section Program.

Context (w : world).

(** [encode_image_to_base64(image_path)] *)
Definition max_size : Z := 8192.

Definition encode_image_to_base64_in (A : Float.arithmetic)
    (image_path : pystr) : result jpeg_b64 :=
  match image_open w image_path with
  | Raise e => Raise e
  | Ok img =>
      let img :=
        if bool_decide (mode img ≠ lit "RGB")
        then PIL.convert (lit "RGB") img else img in
      let img :=
        if ((max_size <? width img) || (max_size <? height img))%Z
        then PIL.thumbnail A max_size max_size img else img in
      PIL.save_jpeg img
  end.

(** The program computes with doubles. *)
Definition encode_image_to_base64 (image_path : pystr) : result jpeg_b64 :=
  encode_image_to_base64_in Float.binary64 image_path.

(** [response.choices[0]] *)
Definition first_choice (r : response) : M choice :=
  match choices r with
  | c :: _ => mret c
  | [] => raise (lit "IndexError") (lit "list index out of range")
  end.

(** [extracted_text.strip()], where [extracted_text] may be [None] *)
Definition strip_content (c : option pystr) : M pystr :=
  match c with
  | Some t => mret (strip t)
  | None =>
      raise (lit "AttributeError")
        (lit "'NoneType' object has no attribute 'strip'")
  end.

Definition error_text (image_path : pystr) (e : exn) : pystr :=
  lit "Error processing " ++ image_path ++ lit ": " ++ exn_str e.

(** [extract_text_from_image(image_path)]: the whole body is inside
    [try ... except Exception]. *)
Definition extract_text_from_image (image_path : pystr) : M pystr :=
  try_except
    (base64_image ← lift (encode_image_to_base64 image_path);
     response ← chat_completions_create w base64_image;
     c ← first_choice response;
     strip_content (content (message c)))
    (λ e, mret (error_text image_path e)).

(** [check_environment()] *)
Definition check_environment : M unit :=
  if bool_decide (getenv w (lit "OPENAI_API_KEY") = None)
     || bool_decide (getenv w (lit "OPENAI_API_KEY") = Some [])
  then
    raise (lit "ValueError")
      (lit "OPENAI_API_KEY not found in environment variables. Please check your .env file.")
  else
    try_except
      (lift (match models_list w with
             | Some e => Raise e
             | None => Ok ()
             end);;
       print ([10003] ++ lit " Successfully connected to OpenAI API"))
      (λ e, raise (lit "Exception")
              (lit "Failed to connect to OpenAI API: " ++ exn_str e)).

Definition image_extensions : list pystr :=
  [lit ".jpg"; lit ".jpeg"; lit ".png"; lit ".bmp"; lit ".tiff"; lit ".tif"].

(** [any(file.lower().endswith(ext) for ext in image_extensions)] *)
Definition is_image_name (file : pystr) : bool :=
  existsb (λ ext, endswith (lower file) ext) image_extensions.

(** The loop that fills [image_files] from the directory listing. *)
Fixpoint discover (images_dir : pystr) (entries : list pystr)
  : list pystr :=
  match entries with
  | [] => []
  | file :: rest =>
      if is_image_name file
      then Path.join images_dir file :: discover images_dir rest
      else discover images_dir rest
  end.

(** The four writes of one image block of the report. *)
Definition report_block (i : nat) (image_path extracted_text : pystr)
  : list pystr :=
  [ lit "IMAGE " ++ str_of_nat i ++ lit ": " ++ Path.basename image_path ++ nl;
    times 45 60 ++ nl;
    extracted_text;
    nl ++ nl ++ times 61 80 ++ nl ++ nl ].

(** [for i, image_path in enumerate(image_files, 1)] of the report;
    [i] is the index of the head of the list. *)
Fixpoint report_loop (f : pystr) (total i : nat) (image_files : list pystr)
  : M unit :=
  match image_files with
  | [] => mret ()
  | image_path :: rest =>
      print (lit "Processing " ++ str_of_nat i ++ lit "/" ++ str_of_nat total
             ++ lit ": " ++ Path.basename image_path);;
      extracted_text ← extract_text_from_image image_path;
      mapM (write f) (report_block i image_path extracted_text);;
      report_loop f total (S i) rest
  end.

Definition word_count (extracted_text : pystr) : nat :=
  length (split extracted_text).

Definition char_count (extracted_text : pystr) : nat :=
  length extracted_text.

(** The three writes of one image entry of the summary. *)
Definition summary_entry (i : nat) (image_path extracted_text : pystr)
  : list pystr :=
  [ str_of_nat i ++ lit ". " ++ Path.basename image_path ++ nl;
    lit "   Words: " ++ str_of_nat (word_count extracted_text)
      ++ lit ", Characters: " ++ str_of_nat (char_count extracted_text) ++ nl;
    lit "   Preview: " ++ slice_to 100 extracted_text ++ lit "..." ++ nl ++ nl ].

(** [for i, image_path in enumerate(image_files, 1)] of the summary:
    every image is extracted again. *)
Fixpoint summary_loop (f : pystr) (i : nat) (image_files : list pystr)
  : M unit :=
  match image_files with
  | [] => mret ()
  | image_path :: rest =>
      extracted_text ← extract_text_from_image image_path;
      mapM (write f) (summary_entry i image_path extracted_text);;
      summary_loop f (S i) rest
  end.

Definition report_header (date : pystr) (n : nat) : list pystr :=
  [ times 61 80 ++ nl;
    lit "TEXT EXTRACTION FROM AUTOCLAVE IMAGES (GPT-4 Vision)" ++ nl;
    times 61 80 ++ nl;
    lit "Extraction Date: " ++ date ++ nl;
    lit "Total Images Processed: " ++ str_of_nat n ++ nl;
    times 61 80 ++ nl ++ nl ].

Definition summary_header (date : pystr) (n : nat) : list pystr :=
  [ lit "EXTRACTION SUMMARY" ++ nl;
    times 61 50 ++ nl;
    lit "Date: " ++ date ++ nl;
    lit "Images processed: " ++ str_of_nat n ++ nl ++ nl ].

Definition output_dir : pystr := lit "extracted_text".
Definition images_dir : pystr := lit "images".
Definition stamp_format : pystr := lit "%Y%m%d_%H%M%S".
Definition date_format : pystr := lit "%Y-%m-%d %H:%M:%S".

Definition output_file (timestamp : pystr) : pystr :=
  Path.join output_dir (lit "extracted_text_" ++ timestamp ++ lit ".txt").

Definition summary_file (timestamp : pystr) : pystr :=
  Path.join output_dir (lit "summary_" ++ timestamp ++ lit ".txt").

(** What [main] does once at least one image was found. *)
Definition process_images (image_files : list pystr) : M unit :=
  let image_files := sort image_files in
  let timestamp := now_strftime w 0 stamp_format in
  let n := length image_files in
  print (lit "Processing " ++ str_of_nat n ++ lit " images...");;
  print (lit "Output will be saved to: " ++ output_file timestamp);;
  f ← open_w (output_file timestamp);
  mapM (write f) (report_header (now_strftime w 1 date_format) n);;
  report_loop f n 1 image_files;;
  print (nl ++ lit "Text extraction completed!");;
  print (lit "Results saved to: " ++ output_file timestamp);;
  f ← open_w (summary_file timestamp);
  mapM (write f) (summary_header (now_strftime w 2 date_format) n);;
  summary_loop f 1 image_files;;
  print (lit "Summary saved to: " ++ summary_file timestamp).

(** [main()] *)
Definition main : M unit :=
  try_except
    (check_environment;;
     there ← path_exists output_dir;
     (if negb there then makedirs w output_dir else mret ());;
     entries ← lift (listdir w images_dir);
     let image_files := discover images_dir entries in
     if bool_decide (image_files = []) then
       print (lit "No image files found in the images directory.")
     else process_images image_files)
    (λ e, print (lit "An error occurred: " ++ exn_str e)).

(** [client = OpenAI(api_key=...)] of line 13: the constructor of the
    client refuses a key that is [None]. *)
Definition OpenAI_init (api_key : option pystr) : result unit :=
  match api_key with
  | Some _ => Ok ()
  | None =>
      Raise {| exn_class := lit "OpenAIError";
               exn_str := lit "The api_key client option must be set either by passing api_key to the client or by setting the OPENAI_API_KEY environment variable" |}
  end.

(** What [python text_extractor.py] runs: the client is constructed
    when the module is loaded, then [main()] is called.  A raised
    result is an exception that nothing catches: the interpreter prints
    its traceback on standard error and the process ends with status
    1. *)
Definition script : M unit :=
  lift (OpenAI_init (getenv w (lit "OPENAI_API_KEY")));;
  main.

End Program.

(** ** Vocabulary of the specification *)

(** The ways one extraction can fail, with the exception of each:
    preprocessing, the remote call, and the reading of the response
    (no choice in it, or a null content).  [n] counts the remote calls
    issued before. *)
Inductive failure (w : world) (n : nat) (image_path : pystr) : exn → Prop :=
| preprocessing_fails e :
    encode_image_to_base64 w image_path = Raise e →
    failure w n image_path e
| remote_call_fails b e :
    encode_image_to_base64 w image_path = Ok b →
    chat_create w n b = Raise e →
    failure w n image_path e
| response_has_no_choice b r :
    encode_image_to_base64 w image_path = Ok b →
    chat_create w n b = Ok r →
    choices r = [] →
    failure w n image_path
      {| exn_class := lit "IndexError";
         exn_str := lit "list index out of range" |}
| response_content_is_null b r c rest :
    encode_image_to_base64 w image_path = Ok b →
    chat_create w n b = Ok r →
    choices r = c :: rest →
    content (message c) = None →
    failure w n image_path
      {| exn_class := lit "AttributeError";
         exn_str := lit "'NoneType' object has no attribute 'strip'" |}.

(** The remote service answers the text [t]. *)
Inductive answer (w : world) (n : nat) (image_path : pystr) : pystr → Prop :=
| answered b r c rest t :
    encode_image_to_base64 w image_path = Ok b →
    chat_create w n b = Ok r →
    choices r = c :: rest →
    content (message c) = Some t →
    answer w n image_path t.

(** [s] is [t] without its leading and trailing white space. *)
Definition trimmed_of (t s : pystr) : Prop :=
  (∃ before after,
      t = before ++ s ++ after
      ∧ Forall (λ c, isspace c = true) before
      ∧ Forall (λ c, isspace c = true) after)
  ∧ (∀ c, head s = Some c → isspace c = false)
  ∧ (∀ c, last s = Some c → isspace c = false).

(** [p] occurs in [s] as a contiguous part. *)
Definition contains (s p : pystr) : Prop := ∃ a b, s = a ++ p ++ b.

(** What one extraction returns and what it changes: a text, and the
    call counter. *)
Definition extraction_text (w : world) (n : nat) (image_path : pystr) : pystr :=
  match encode_image_to_base64 w image_path with
  | Raise e => error_text image_path e
  | Ok b =>
      match chat_create w n b with
      | Raise e => error_text image_path e
      | Ok r =>
          match choices r with
          | [] => error_text image_path
                    {| exn_class := lit "IndexError";
                       exn_str := lit "list index out of range" |}
          | c :: _ =>
              match content (message c) with
              | None => error_text image_path
                          {| exn_class := lit "AttributeError";
                             exn_str := lit "'NoneType' object has no attribute 'strip'" |}
              | Some t => strip t
              end
          end
      end
  end.

Definition extraction_calls (w : world) (n : nat) (image_path : pystr) : nat :=
  match encode_image_to_base64 w image_path with
  | Raise _ => n
  | Ok _ => S n
  end.

(** ** Sample worlds, used to run the program on concrete inputs *)

Definition example_text : pystr := lit "H17 247" ++ [176] ++ lit "F 16P".

Definition answer_with (c : option pystr) : response :=
  {| choices := [ {| message := {| content := c |} |} ] |}.

Definition cannot_identify : exn :=
  {| exn_class := lit "UnidentifiedImageError";
     exn_str := lit "cannot identify image file" |}.

(** A directory with three images and one other file, listed out of
    order; [B.PNG] is corrupt, [a.jpg] is small, [c.bmp] is 10000x5000;
    the service answers the same text, padded, to every call. *)
Definition sample_world : world :=
  {| getenv := λ name,
       if bool_decide (name = lit "OPENAI_API_KEY") then Some (lit "sk-test")
       else None;
     models_list := None;
     image_open := λ p,
       if bool_decide (p = lit "images/B.PNG") then Raise cannot_identify
       else if bool_decide (p = lit "images/a.jpg")
            then Ok {| mode := lit "RGB"; width := 1024; height := 768 |}
       else Ok {| mode := lit "L"; width := 10000; height := 5000 |};
     chat_create := λ _ _, Ok (answer_with (Some ([32] ++ example_text ++ nl)));
     makedirs_error := λ _, None;
     listdir := λ _, Ok [lit "c.bmp"; lit "notes.txt"; lit "B.PNG"; lit "a.jpg"];
     now_strftime := λ k _, lit "20240102_03040" ++ str_of_nat k |}.

(** The same world with a service that answers [None]. *)
Definition null_answer_world : world :=
  {| getenv := getenv sample_world;
     models_list := None;
     image_open := image_open sample_world;
     chat_create := λ _ _, Ok (answer_with None);
     makedirs_error := λ _, None;
     listdir := listdir sample_world;
     now_strftime := now_strftime sample_world |}.

(** The same world with no image in the input directory. *)
Definition no_image_world : world :=
  {| getenv := getenv sample_world;
     models_list := None;
     image_open := image_open sample_world;
     chat_create := chat_create sample_world;
     makedirs_error := λ _, None;
     listdir := λ _, Ok [lit "notes.txt"; lit "jpg"];
     now_strftime := now_strftime sample_world |}.

(** The same world without the credential. *)
Definition no_key_world : world :=
  {| getenv := λ _, None;
     models_list := None;
     image_open := image_open sample_world;
     chat_create := chat_create sample_world;
     makedirs_error := λ _, None;
     listdir := listdir sample_world;
     now_strftime := now_strftime sample_world |}.

(** A process that has printed nothing, in an empty working directory. *)
Definition fresh : state :=
  {| console := []; dirs := ∅; files := ∅; calls := 0 |}.

(** ** Vocabulary for whole runs *)

(** The texts extracted for the images [l], one remote call after the
    other, when [n] calls were issued before. *)
Fixpoint texts_from (w : world) (n : nat) (l : list pystr) : list pystr :=
  match l with
  | [] => []
  | image_path :: rest =>
      extraction_text w n image_path
        :: texts_from w (extraction_calls w n image_path) rest
  end.

Fixpoint calls_after (w : world) (n : nat) (l : list pystr) : nat :=
  match l with
  | [] => n
  | image_path :: rest => calls_after w (extraction_calls w n image_path) rest
  end.

(** The image blocks of a report: block number [i + k] is made of the
    [k]-th path and the [k]-th text. *)
Definition report_blocks (i : nat) (paths texts : list pystr) : list pystr :=
  concat (zip_with (λ k pt, report_block k pt.1 pt.2)
            (seq i (length paths)) (zip paths texts)).

(** The image entries of a summary, numbered likewise. *)
Definition summary_entries (i : nat) (paths texts : list pystr) : list pystr :=
  concat (zip_with (λ k pt, summary_entry k pt.1 pt.2)
            (seq i (length paths)) (zip paths texts)).

Definition progress_lines (total i : nat) (paths : list pystr) : list pystr :=
  zip_with (λ k p, lit "Processing " ++ str_of_nat k ++ lit "/"
                   ++ str_of_nat total ++ lit ": " ++ Path.basename p)
    (seq i (length paths)) paths.

(** The console notices of the source. *)
Definition connected_notice : pystr :=
  [10003] ++ lit " Successfully connected to OpenAI API".

Definition no_image_notice : pystr :=
  lit "No image files found in the images directory.".

Definition missing_key_notice : pystr :=
  lit "An error occurred: OPENAI_API_KEY not found in environment variables. Please check your .env file.".

(** The credential is set to a non-empty value. *)
Definition has_credential (w : world) : Prop :=
  ∃ key, getenv w (lit "OPENAI_API_KEY") = Some key ∧ key ≠ [].

(** The number of maximal runs of non-space characters of [s]: a run
    starts at a non-space character that is first or follows a space.
    [inside] tells whether the previous character belongs to a run. *)
Fixpoint count_runs (inside : bool) (s : pystr) : nat :=
  match s with
  | [] => 0
  | c :: s' =>
      if isspace c then count_runs false s'
      else if inside then count_runs true s'
      else S (count_runs true s')
  end.

(** ** Vocabulary for what a run may change *)

(** [st'] differs from [st] only by what [main] may do in world [w]:
    its two output files may be created or rewritten, the output
    directory may be added, the console and the call counter may grow.
    No other file changes, and no file or directory disappears. *)
Definition run_extends (w : world) (st st' : state) : Prop :=
  let timestamp := now_strftime w 0 stamp_format in
  (∀ p, p ≠ output_file timestamp → p ≠ summary_file timestamp →
        files st' !! p = files st !! p)
  ∧ dom (files st) ⊆ dom (files st')
  ∧ dirs st ⊆ dirs st'
  ∧ dirs st' ⊆ {[output_dir]} ∪ dirs st
  ∧ console st `prefix_of` console st'
  ∧ (calls st ≤ calls st')%nat.

(** Every run of [m] is related to its start by [R]. *)
Definition keeps {A} (R : relation state) (m : M A) : Prop :=
  ∀ st, R st (m st).2.

(** Preprocessing of [image_path] returns a payload. *)
Definition preprocesses (w : world) (image_path : pystr) : bool :=
  match encode_image_to_base64 w image_path with
  | Ok _ => true
  | Raise _ => false
  end.

(** ** Further sample worlds *)

Definition connection_error : exn :=
  {| exn_class := lit "APIConnectionError";
     exn_str := lit "Connection error." |}.

Definition permission_denied : exn :=
  {| exn_class := lit "PermissionError";
     exn_str := lit "[Errno 13] Permission denied: 'extracted_text'" |}.

(** The sample world with a service that cannot be reached. *)
Definition unreachable_world : world :=
  {| getenv := getenv sample_world;
     models_list := Some connection_error;
     image_open := image_open sample_world;
     chat_create := chat_create sample_world;
     makedirs_error := λ _, None;
     listdir := listdir sample_world;
     now_strftime := now_strftime sample_world |}.

(** The sample world in a directory where nothing can be created. *)
Definition read_only_world : world :=
  {| getenv := getenv sample_world;
     models_list := None;
     image_open := image_open sample_world;
     chat_create := chat_create sample_world;
     makedirs_error := λ _, Some permission_denied;
     listdir := listdir sample_world;
     now_strftime := now_strftime sample_world |}.

(** The sample world one minute later. *)
Definition later_world : world :=
  {| getenv := getenv sample_world;
     models_list := None;
     image_open := image_open sample_world;
     chat_create := chat_create sample_world;
     makedirs_error := λ _, None;
     listdir := listdir sample_world;
     now_strftime := λ k _, lit "20240102_03050" ++ str_of_nat k |}.

(** A working directory in which [extracted_text] is a regular file. *)
Definition name_taken : state :=
  {| console := []; dirs := ∅;
     files := {[ lit "extracted_text" := lit "notes" ]}; calls := 0 |}.

(** [p] is one of the two files a run in world [w] writes. *)
Definition is_output (w : world) (p : pystr) : Prop :=
  p = output_file (now_strftime w 0 stamp_format)
  ∨ p = summary_file (now_strftime w 0 stamp_format).

(** The sample world with a service that answers white space only. *)
Definition blank_answer_world : world :=
  {| getenv := getenv sample_world;
     models_list := None;
     image_open := image_open sample_world;
     chat_create := λ _ _, Ok (answer_with (Some [32; 10; 9]));
     makedirs_error := λ _, None;
     listdir := listdir sample_world;
     now_strftime := now_strftime sample_world |}.

(** A world with one small image, for which the service answers a
    text with a lone surrogate. *)
Definition surrogate_answer_world : world :=
  {| getenv := getenv sample_world;
     models_list := None;
     image_open := image_open sample_world;
     chat_create := λ _ _, Ok (answer_with (Some (lit "ab" ++ [56448])));
     makedirs_error := λ _, None;
     listdir := λ _, Ok [lit "a.jpg"];
     now_strftime := now_strftime sample_world |}.

(** ** Vocabulary for the arithmetic *)

(** [r] is [q] rounded as a double rounds a positive number: the
    relative error is at most 2^-53, and the rounding does not cross a
    number the arithmetic has. *)
Definition rounds (A : Float.arithmetic) (q r : Q) : Prop :=
  (Qabs (r - q) <= q * (1 # 9007199254740992))%Q
  ∧ (∀ c : Float.num A, Float.value A c <= q → Float.value A c <= r)%Q
  ∧ (∀ c : Float.num A, q <= Float.value A c → r <= Float.value A c)%Q.

(** Between 2^-64 and 2^64: far from overflow and underflow. *)
Definition in_range (q : Q) : Prop :=
  ((1 # 18446744073709551616) <= q ∧ q <= 18446744073709551616)%Q.

(** What IEEE 754 promises of the operations the size rule uses:
    integers up to 2^53 convert exactly, and quotients and products of
    numbers in range are correctly rounded. *)
Record ieee_like (A : Float.arithmetic) : Prop := {
  of_int_exact :
    ∀ z, (0 ≤ z ≤ 9007199254740992)%Z →
         (Float.value A (Float.of_int A z) == inject_Z z)%Q;
  div_rounds :
    ∀ a b, in_range (Float.value A a) → in_range (Float.value A b) →
           rounds A (Float.value A a / Float.value A b)
             (Float.value A (Float.div A a b));
  mul_rounds :
    ∀ a b, in_range (Float.value A a) → in_range (Float.value A b) →
           rounds A (Float.value A a * Float.value A b)
             (Float.value A (Float.mul A a b))
}.

(** ** Vocabulary for names and texts *)

(** [c] is the character [e] of an extension, or its capital. *)
Definition same_letter (c e : N) : Prop :=
  c = e ∨ (65 ≤ c ∧ c ≤ 90 ∧ e = c + 32).

(** [file] ends with [ext], the case of letters left aside. *)
Definition ends_with_ignoring_case (file ext : pystr) : Prop :=
  ∃ stem tail, file = stem ++ tail ∧ Forall2 same_letter tail ext.

(** What [strftime("%Y%m%d_%H%M%S")] is made of: digits and the
    underscore. *)
Definition is_time_stamp (ts : pystr) : Prop :=
  Forall (λ c, (48 ≤ c ∧ c ≤ 57) ∨ c = 95) ts.

(** No code point of [s] is a surrogate. *)
Definition no_surrogate (s : pystr) : Prop :=
  Forall (λ c, ¬ (55296 ≤ c ∧ c ≤ 57343)) s.

(** Nothing a run over [entries] writes or prints holds a surrogate:
    the names of the listing, the texts extracted for them, the time
    stamp and the two dates are free of them. *)
Definition encodable_run (w : world) (entries : list pystr) : Prop :=
  (∀ file, file ∈ entries → no_surrogate file)
  ∧ (∀ n file, file ∈ entries →
       no_surrogate (extraction_text w n (Path.join images_dir file)))
  ∧ no_surrogate (now_strftime w 0 stamp_format)
  ∧ no_surrogate (now_strftime w 1 date_format)
  ∧ no_surrogate (now_strftime w 2 date_format).

(** The report file, character by character: the header, then for the
    [k]-th path and text a title line with the number [k + 1] and the
    file name, a rule of 60 dashes, the text, an empty line and a rule
    of 80 equal signs followed by an empty line. *)
Definition expected_report (date : pystr) (paths texts : list pystr)
  : pystr :=
  replicate 80 61 ++ [10]
  ++ lit "TEXT EXTRACTION FROM AUTOCLAVE IMAGES (GPT-4 Vision)" ++ [10]
  ++ replicate 80 61 ++ [10]
  ++ lit "Extraction Date: " ++ date ++ [10]
  ++ lit "Total Images Processed: " ++ str_of_nat (length paths) ++ [10]
  ++ replicate 80 61 ++ [10; 10]
  ++ concat (imap (λ k pt,
               lit "IMAGE " ++ str_of_nat (S k) ++ lit ": "
               ++ Path.basename pt.1 ++ [10]
               ++ replicate 60 45 ++ [10]
               ++ pt.2
               ++ [10; 10] ++ replicate 80 61 ++ [10; 10])
             (zip paths texts)).

(** The summary file, character by character: the header, then for the
    [k]-th path and text the number and the file name, the counts of
    words and characters of the text, and its first 100 characters
    followed by an ellipsis. *)
Definition expected_summary (date : pystr) (paths texts : list pystr)
  : pystr :=
  lit "EXTRACTION SUMMARY" ++ [10]
  ++ replicate 50 61 ++ [10]
  ++ lit "Date: " ++ date ++ [10]
  ++ lit "Images processed: " ++ str_of_nat (length paths) ++ [10; 10]
  ++ concat (imap (λ k pt,
               str_of_nat (S k) ++ lit ". " ++ Path.basename pt.1 ++ [10]
               ++ lit "   Words: " ++ str_of_nat (count_runs false pt.2)
               ++ lit ", Characters: " ++ str_of_nat (length pt.2) ++ [10]
               ++ lit "   Preview: " ++ take 100 pt.2 ++ lit "..."
               ++ [10; 10])
             (zip paths texts)).

(** * Properties *)

(** ** The order on strings and the sort *)

Section StringOrder.

Lemma str_leb_refl a : str_leb a a = true.
Proof.
  induction a as [|x a IH]; simpl; [done|].
  by rewrite N.ltb_irrefl.
Qed.

Lemma str_leb_total a b : str_leb a b = true ∨ str_leb b a = true.
Proof.
  revert b; induction a as [|x a IH]; intros [|y b]; simpl; auto.
  destruct (N.ltb_spec x y), (N.ltb_spec y x); auto; lia.
Qed.

Lemma str_leb_trans a b c :
  str_leb a b = true → str_leb b c = true → str_leb a c = true.
Proof.
  revert b c; induction a as [|x a IH]; intros [|y b] [|z c]; simpl; try done.
  destruct (N.ltb_spec x y), (N.ltb_spec y x), (N.ltb_spec y z),
    (N.ltb_spec z y), (N.ltb_spec x z), (N.ltb_spec z x);
    try done; try lia; eauto.
Qed.

Lemma str_leb_antisym a b :
  str_leb a b = true → str_leb b a = true → a = b.
Proof.
  revert b; induction a as [|x a IH]; intros [|y b]; simpl; try done.
  destruct (N.ltb_spec x y), (N.ltb_spec y x); try done; try lia.
  intros Hab Hba. assert (x = y) as -> by lia. f_equal; auto.
Qed.

#[global] Instance str_le_total : Total str_le.
Proof. intros a b. apply str_leb_total. Qed.

#[global] Instance str_le_trans : Transitive str_le.
Proof. intros a b c. apply str_leb_trans. Qed.

#[global] Instance str_le_antisym : AntiSymm (=) str_le.
Proof. intros a b. apply str_leb_antisym. Qed.

Lemma sort_Sorted l : Sorted str_le (sort l).
Proof. apply (Sorted_merge_sort str_le). Qed.

Lemma sort_Permutation l : sort l ≡ₚ l.
Proof. apply merge_sort_Permutation. Qed.

(** The sorted list depends on the elements only, not on their order. *)
Lemma sort_order_independent l l' : l ≡ₚ l' → sort l = sort l'.
Proof.
  intros Hp. apply (Sorted_unique str_le); try apply sort_Sorted.
  by rewrite !sort_Permutation.
Qed.

Lemma sort_length l : length (sort l) = length l.
Proof. apply Permutation_length, sort_Permutation. Qed.

End StringOrder.

(** ** Discovery *)

Section Discovery.

Lemma endswith_suffix s suf : endswith s suf = true ↔ suf `suffix_of` s.
Proof.
  unfold endswith. rewrite bool_decide_eq_true. split.
  - intros <-. exists (take (length s - length suf) s).
    by rewrite take_drop.
  - intros [k ->]. rewrite length_app.
    replace (length k + length suf - length suf)%nat with (length k) by lia.
    by rewrite drop_app_length.
Qed.

Lemma is_image_name_spec file :
  is_image_name file = true ↔
  ∃ ext, ext ∈ image_extensions ∧ ext `suffix_of` lower file.
Proof.
  unfold is_image_name. rewrite existsb_exists. split.
  - intros (ext & Hin & He). exists ext. split.
    + by apply list_elem_of_In.
    + by apply endswith_suffix.
  - intros (ext & Hin & He). exists ext. split.
    + by apply list_elem_of_In.
    + by apply endswith_suffix.
Qed.

Lemma discover_filter d entries :
  discover d entries = Path.join d <$> filter (λ f, is_image_name f = true) entries.
Proof.
  induction entries as [|f rest IH]; [done|]. simpl.
  rewrite filter_cons. destruct (is_image_name f) eqn:E.
  - rewrite decide_True by done. simpl. by rewrite IH.
  - rewrite decide_False by (by intros ?). done.
Qed.

Lemma discover_Permutation d entries entries' :
  entries ≡ₚ entries' → discover d entries ≡ₚ discover d entries'.
Proof. intros Hp. rewrite !discover_filter. by rewrite Hp. Qed.

(* Lower-casing a character gives a given lower-case character exactly
   when the character is that one or its capital. *)
Lemma lower_char_same_letter c e :
  lower_char e = e → lower_char c = e ↔ same_letter c e.
Proof.
  unfold lower_char, same_letter.
  destruct ((65 <=? e)%N && (e <=? 90)%N) eqn:Ee; [lia|].
  apply andb_false_iff in Ee. rewrite !N.leb_gt in Ee.
  destruct ((65 <=? c)%N && (c <=? 90)%N) eqn:Ec.
  - apply andb_true_iff in Ec. rewrite !N.leb_le in Ec. lia.
  - apply andb_false_iff in Ec. rewrite !N.leb_gt in Ec. lia.
Qed.

Lemma lower_same_letters tail ext :
  Forall (λ e, lower_char e = e) ext →
  lower tail = ext ↔ Forall2 same_letter tail ext.
Proof.
  unfold lower. intros Hext. revert tail.
  induction Hext as [|e ext He _ IH]; intros [|c tail]; simpl.
  - split; [constructor|done].
  - split; [done|]. intros H. inversion H.
  - split; [done|]. intros H. inversion H.
  - split.
    + intros [= Hc Ht]. constructor.
      * by apply lower_char_same_letter.
      * by apply IH.
    + intros H. inversion H as [|? ? ? ? Hc Ht]; subst. f_equal.
      * by apply lower_char_same_letter.
      * by apply IH.
Qed.

Lemma extensions_are_lower ext :
  ext ∈ image_extensions → Forall (λ e, lower_char e = e) ext.
Proof.
  unfold image_extensions. intros H.
  repeat (apply elem_of_cons in H as [-> | H]);
    [apply (bool_decide_unpack _); by vm_compute.. | by apply elem_of_nil in H].
Qed.

Lemma suffix_of_lower file ext :
  Forall (λ e, lower_char e = e) ext →
  ext `suffix_of` lower file ↔ ends_with_ignoring_case file ext.
Proof.
  intros Hext. unfold ends_with_ignoring_case. split.
  - intros [k Hk]. unfold lower in Hk.
    apply fmap_app_inv in Hk as (stem & tail & _ & Ht & ->).
    exists stem, tail. split; [done|]. by apply lower_same_letters.
  - intros (stem & tail & -> & Ht). exists (lower stem).
    apply lower_same_letters in Ht; [|done].
    unfold lower in *. by rewrite fmap_app, Ht.
Qed.

End Discovery.

(** C7: a path is in the batch exactly when it is the input directory
    joined with an entry of its (flat) listing whose name ends with one
    of .jpg, .jpeg, .png, .bmp, .tiff, .tif, where each letter of the
    ending may be a capital in the name. *)
Theorem discover_exactly_image_names (entries : list pystr) (p : pystr) :
  p ∈ discover images_dir entries ↔
  ∃ file, file ∈ entries
          ∧ p = Path.join images_dir file
          ∧ ∃ ext, ext ∈ [lit ".jpg"; lit ".jpeg"; lit ".png";
                          lit ".bmp"; lit ".tiff"; lit ".tif"]
                   ∧ ends_with_ignoring_case file ext.
Proof.
  rewrite discover_filter, list_elem_of_fmap. split.
  - intros (file & -> & Hin). apply list_elem_of_filter in Hin as [Hm Hin].
    exists file. split_and!; [done..|].
    apply is_image_name_spec in Hm as (ext & He & Hs).
    exists ext. split; [done|].
    by apply suffix_of_lower; [apply extensions_are_lower|].
  - intros (file & Hin & -> & ext & He & Hs). exists file. split; [done|].
    apply list_elem_of_filter. split; [|done]. apply is_image_name_spec.
    exists ext. split; [done|].
    by apply suffix_of_lower; [apply extensions_are_lower|].
Qed.

(** ** Extraction *)

Section Extraction.

Context (w : world).

Lemma lstrip_spec t :
  ∃ before, t = before ++ lstrip t
            ∧ Forall (λ c, isspace c = true) before
            ∧ ∀ c, head (lstrip t) = Some c → isspace c = false.
Proof.
  induction t as [|x t (before & Ht & Hb & Hh)]; simpl.
  - exists []. by split_and!.
  - destruct (isspace x) eqn:E.
    + exists (x :: before). split_and!; [|by constructor|done].
      simpl. by f_equal.
    + exists []. split_and!; [done|done|]. simpl. by intros c [= <-].
Qed.

Lemma strip_trimmed t : trimmed_of t (strip t).
Proof.
  unfold strip, rstrip.
  destruct (lstrip_spec t) as (before & Ht & Hb & Hh).
  destruct (lstrip_spec (reverse (lstrip t))) as (rafter & Hr & Ha & Hl).
  set (m := lstrip (reverse (lstrip t))) in *.
  assert (lstrip t = reverse m ++ reverse rafter) as Hmid.
  { rewrite <- reverse_app, <- Hr. by rewrite reverse_involutive. }
  split_and!.
  - exists before, (reverse rafter). split_and!.
    + rewrite Ht at 1. by rewrite Hmid.
    + done.
    + by apply Forall_reverse.
  - intros c Hc. destruct (reverse m) as [|y m'] eqn:Em; [done|].
    simpl in Hc. injection Hc as ->. apply Hh. by rewrite Hmid.
  - intros c Hc. apply Hl. rewrite <- (reverse_involutive m).
    rewrite head_reverse. done.
Qed.

Lemma error_text_shape image_path e :
  lit "Error processing" `prefix_of` error_text image_path e
  ∧ contains (error_text image_path e) image_path.
Proof.
  split.
  - exists ([32] ++ image_path ++ lit ": " ++ exn_str e). done.
  - exists (lit "Error processing "), (lit ": " ++ exn_str e). done.
Qed.

Lemma extract_text_from_image_run image_path st :
  extract_text_from_image w image_path st
  = (Ok (extraction_text w (calls st) image_path),
     {| console := console st; dirs := dirs st; files := files st;
        calls := extraction_calls w (calls st) image_path |}).
Proof.
  unfold extract_text_from_image, try_except, extraction_text, extraction_calls.
  unfold mbind, M_bind, lift, chat_completions_create, first_choice, strip_content.
  destruct (encode_image_to_base64 w image_path) as [b|e]; simpl.
  - destruct (chat_create w (calls st) b) as [r|e]; simpl; [|done].
    destruct (choices r) as [|c rest]; simpl; [done|].
    destruct (content (message c)); done.
  - by destruct st.
Qed.

End Extraction.

Lemma failure_or_answer w n image_path :
  (∃ e, failure w n image_path e) ∨ (∃ t, answer w n image_path t).
Proof.
  destruct (encode_image_to_base64 w image_path) as [b|e] eqn:Eb.
  2: { left. exists e. by constructor. }
  destruct (chat_create w n b) as [r|e] eqn:Er.
  2: { left. exists e. by econstructor 2. }
  destruct (choices r) as [|c rest] eqn:Ec.
  { left. eexists. by econstructor 3. }
  destruct (content (message c)) as [t|] eqn:Et.
  - right. exists t. by econstructor.
  - left. eexists. by econstructor 4.
Qed.

Lemma extraction_text_failure w n image_path e :
  failure w n image_path e →
  extraction_text w n image_path = error_text image_path e.
Proof.
  unfold extraction_text.
  intros [e' H|b e' Hb Hr|b r Hb Hr Hc|b r c rest Hb Hr Hc Ht].
  - by rewrite H.
  - by rewrite Hb, Hr.
  - by rewrite Hb, Hr, Hc.
  - by rewrite Hb, Hr, Hc, Ht.
Qed.

Lemma extraction_text_answer w n image_path t :
  answer w n image_path t → extraction_text w n image_path = strip t.
Proof.
  unfold extraction_text. intros [b r c rest t' Hb Hr Hc Ht].
  by rewrite Hb, Hr, Hc, Ht.
Qed.

(** C1: extract_text_from_image always returns a string.  When
    preprocessing, the remote call or the reading of the response fails
    with exception [e], the string is "Error processing {path}: {str(e)}",
    which starts with "Error processing" and contains the path; when the
    service answers a text, the string is that text without its
    surrounding white space.  One of the two always applies. *)
Theorem extract_text_from_image_never_raises
    (w : world) (image_path : pystr) (st : state) :
  (∃ s, (extract_text_from_image w image_path st).1 = Ok s)
  ∧ (∀ e, failure w (calls st) image_path e →
       ∃ s, (extract_text_from_image w image_path st).1 = Ok s
            ∧ s = lit "Error processing " ++ image_path ++ lit ": " ++ exn_str e
            ∧ lit "Error processing" `prefix_of` s
            ∧ contains s image_path)
  ∧ (∀ t, answer w (calls st) image_path t →
       ∃ s, (extract_text_from_image w image_path st).1 = Ok s
            ∧ s = strip t ∧ trimmed_of t s)
  ∧ ((∃ e, failure w (calls st) image_path e)
     ∨ (∃ t, answer w (calls st) image_path t)).
Proof.
  rewrite extract_text_from_image_run. simpl. split_and!.
  - eauto.
  - intros e He. eexists. split; [done|].
    rewrite (extraction_text_failure _ _ _ _ He).
    split; [done|]. apply error_text_shape.
  - intros t Ht. eexists. split; [done|].
    rewrite (extraction_text_answer _ _ _ _ Ht).
    split; [done|]. apply strip_trimmed.
  - apply failure_or_answer.
Qed.

(** C9, as the code has it: a null answer is caught inside
    extract_text_from_image and returned as the per-image error text;
    an empty answer is returned as the empty string.  Nothing is
    raised in either case. *)
Theorem null_answer_is_a_per_image_error
    (w : world) (image_path : pystr) (st : state)
    (b : jpeg_b64) (r : response) (c : choice) (rest : list choice) :
  encode_image_to_base64 w image_path = Ok b →
  chat_create w (calls st) b = Ok r →
  choices r = c :: rest →
  (content (message c) = None →
     (extract_text_from_image w image_path st).1
     = Ok (lit "Error processing " ++ image_path
           ++ lit ": 'NoneType' object has no attribute 'strip'"))
  ∧ (content (message c) = Some [] →
     (extract_text_from_image w image_path st).1 = Ok []).
Proof.
  intros Hb Hr Hc. rewrite extract_text_from_image_run. simpl.
  unfold extraction_text. rewrite Hb, Hr, Hc.
  split; intros ->; done.
Qed.

Lemma null_answer_is_a_per_image_error_witness :
  (extract_text_from_image null_answer_world (lit "images/a.jpg") fresh).1
  = Ok (lit "Error processing images/a.jpg: 'NoneType' object has no attribute 'strip'").
Proof.
  refine (proj1 (null_answer_is_a_per_image_error null_answer_world
            (lit "images/a.jpg") fresh
            {| decoded := {| mode := lit "RGB"; width := 1024; height := 768 |} |}
            (answer_with None) {| message := {| content := None |} |} []
            _ _ _) _); reflexivity.
Defined.

(** C9 as stated fails: with a null answer, no exception leaves
    extract_text_from_image. *)
Lemma null_answer_does_not_propagate :
  failure null_answer_world 0 (lit "images/a.jpg")
    {| exn_class := lit "AttributeError";
       exn_str := lit "'NoneType' object has no attribute 'strip'" |}
  ∧ ¬ ∃ e, (extract_text_from_image null_answer_world (lit "images/a.jpg") fresh).1
           = Raise e.
Proof.
  split.
  - by eapply (response_content_is_null _ _ _ _ (answer_with None)).
  - intros [e He]. vm_compute in He. discriminate.
Qed.

(** ** Preprocessing *)

Section SizeRule.

Import Float.
Local Open Scope Q_scope.

Context (A : arithmetic) (HA : ieee_like A).

Lemma rounds_exact q r c : rounds A q r → value A c == q → r == q.
Proof.
  intros (_ & Hlo & Hhi) Hc. apply Qle_antisym.
  - rewrite <- Hc. apply Hhi. rewrite Hc. apply Qle_refl.
  - rewrite <- Hc. apply Hlo. rewrite Hc. apply Qle_refl.
Qed.

Lemma rounds_bounds q r :
  0 < q → rounds A q r →
  q - q * (1 # 9007199254740992) <= r ∧ r <= q + q * (1 # 9007199254740992).
Proof.
  intros Hq (He & _ & _). apply Qabs_Qle_condition in He. lra.
Qed.

Lemma rounds_below q r c : rounds A q r → q <= value A c → r <= value A c.
Proof. intros (_ & _ & H). apply H. Qed.

Lemma of_int_value z :
  (0 ≤ z ≤ 9007199254740992)%Z → value A (of_int A z) == inject_Z z.
Proof. apply (of_int_exact A HA). Qed.

Lemma inject_Z_bounds (z lo hi : Z) :
  (lo ≤ z ≤ hi)%Z → (lo # 1) <= inject_Z z ∧ inject_Z z <= (hi # 1).
Proof.
  intros [? ?]. change (lo # 1) with (inject_Z lo).
  change (hi # 1) with (inject_Z hi). split; by rewrite <- Zle_Qle.
Qed.


(* The aspect computed for a decodable image: in range, and within the
   relative error of the exact quotient, stated without division. *)
Lemma aspect_bounds (W H : Z) :
  (0 < W < 2147483648)%Z → (0 < H < 2147483648)%Z →
  let a := value A (div A (of_int A W) (of_int A H)) in
  in_range a
  ∧ (inject_Z W - inject_Z W * (1 # 9007199254740992) <= a * inject_Z H)
  ∧ (a * inject_Z H <= inject_Z W + inject_Z W * (1 # 9007199254740992))
  ∧ rounds A (inject_Z W / inject_Z H) a.
Proof.
  intros HW HH a.
  pose proof (of_int_value W ltac:(lia)) as EW.
  pose proof (of_int_value H ltac:(lia)) as EH.
  destruct (inject_Z_bounds W 1 2147483648 ltac:(lia)) as [W1 W2].
  destruct (inject_Z_bounds H 1 2147483648 ltac:(lia)) as [H1 H2].
  assert (rounds A (value A (of_int A W) / value A (of_int A H)) a) as Hr.
  { apply (div_rounds A HA); unfold in_range; rewrite ?EW, ?EH; lra. }
  assert (rounds A (inject_Z W / inject_Z H) a) as Hr'.
  { destruct Hr as (R1 & R2 & R3). unfold rounds.
    split_and!.
    - by rewrite <- EW, <- EH.
    - intros c. rewrite <- EW, <- EH. apply R2.
    - intros c. rewrite <- EW, <- EH. apply R3. }
  set (q := inject_Z W / inject_Z H) in *.
  assert (q * inject_Z H == inject_Z W) as Eq by (unfold q; field; lra).
  assert (0 < q) as Hq.
  { unfold q. apply Qlt_shift_div_l; lra. }
  destruct (rounds_bounds q a Hq Hr') as [B1 B2].
  assert (q <= 2147483648) as Q2.
  { unfold q. apply Qle_shift_div_r; [lra|]. nra. }
  assert ((1 # 2147483648) <= q) as Q1.
  { unfold q. apply Qle_shift_div_l; [lra|]. nra. }
  split_and!; [| | |done].
  - unfold in_range. lra.
  - nra.
  - nra.
Qed.


(* Rounding a positive number to a neighbouring integer, at least 1. *)
Lemma round_aspect_near (number : num A) (key : Z → Q) :
  0 < value A number → value A number <= 8192 →
  (1 ≤ PIL.round_aspect A number key ≤ 8192)%Z
  ∧ value A number - 1 < inject_Z (PIL.round_aspect A number key)
  ∧ inject_Z (PIL.round_aspect A number key) < value A number + 1.
Proof.
  intros Hpos Hle. unfold PIL.round_aspect.
  set (n := value A number) in *.
  pose proof (Qfloor_le n) as F1. pose proof (Qlt_floor n) as F2.
  pose proof (Qle_ceiling n) as C1. pose proof (Qceiling_lt n) as C2.
  rewrite inject_Z_plus in F2.
  unfold Z.sub in C2. rewrite inject_Z_plus in C2.
  rewrite inject_Z_opp in C2. change (inject_Z 1) with 1 in *.
  assert (∀ z : Z, n - 1 < inject_Z z → inject_Z z < n + 1 →
            (1 ≤ Z.max z 1 ≤ 8192)%Z
            ∧ n - 1 < inject_Z (Z.max z 1) ∧ inject_Z (Z.max z 1) < n + 1)
    as Hcase.
  { intros z Hz1 Hz2.
    assert (z ≤ 8192)%Z as Hz.
    { apply Z.lt_succ_r. rewrite Zlt_Qlt.
      change (inject_Z (Z.succ 8192)) with 8193. lra. }
    destruct (Z.max_spec z 1) as [[Hlt ->]|[Hge ->]].
    - change (inject_Z 1) with 1. split; [lia|].
      assert (z ≤ 0)%Z as Hz0 by lia. rewrite Zle_Qle in Hz0.
      change (inject_Z 0) with 0 in Hz0. split; lra.
    - split; [lia|]. done. }
  destruct (Qle_bool _ _); apply Hcase; lra.
Qed.


(* From rationals back to integers. *)
Lemma cross_difference (x H W : Z) :
  inject_Z (x * H - 8192 * W) == inject_Z x * inject_Z H - 8192 * inject_Z W.
Proof.
  unfold Z.sub. rewrite inject_Z_plus, inject_Z_opp, !inject_Z_mult.
  change (inject_Z 8192) with 8192. ring.
Qed.

Lemma within_a_pixel (x H W : Z) :
  inject_Z x * inject_Z H - 8192 * inject_Z W < inject_Z H + 1 →
  - inject_Z H - 1 < inject_Z x * inject_Z H - 8192 * inject_Z W →
  (Z.abs (x * H - 8192 * W) ≤ H)%Z.
Proof.
  intros Hhi Hlo. rewrite <- cross_difference in Hhi, Hlo.
  assert (x * H - 8192 * W < H + 1)%Z.
  { rewrite Zlt_Qlt, inject_Z_plus. by change (inject_Z 1) with 1. }
  assert (- H - 1 < x * H - 8192 * W)%Z.
  { rewrite Zlt_Qlt. unfold Z.sub at 1.
    rewrite inject_Z_plus, !inject_Z_opp. by change (inject_Z 1) with 1. }
  lia.
Qed.

Lemma one_value :
  value A (div A (of_int A 8192) (of_int A 8192)) == 1.
Proof.
  pose proof (of_int_value 8192 ltac:(lia)) as E.
  pose proof (of_int_value 1 ltac:(lia)) as E1.
  change (inject_Z 8192) with 8192 in E. change (inject_Z 1) with 1 in E1.
  transitivity (value A (of_int A 8192) / value A (of_int A 8192)).
  - apply (rounds_exact _ _ (of_int A 1)).
    + apply (div_rounds A HA); unfold in_range; rewrite E; lra.
    + rewrite E, E1. field.
  - rewrite E. field.
Qed.


(* The branch [x / y >= aspect]: the width is computed. *)
Lemma computed_width (W H : Z) (key : Z → Q) :
  (0 < W < 2147483648)%Z → (0 < H < 2147483648)%Z →
  let aspect := div A (of_int A W) (of_int A H) in
  value A aspect <= 1 →
  let x := PIL.round_aspect A (mul A (of_int A 8192) aspect) key in
  (1 ≤ x ≤ 8192)%Z ∧ (W ≤ H)%Z
  ∧ (Z.abs (x * H - 8192 * W) ≤ H)%Z
  ∧ (W = H → x = 8192%Z).
Proof.
  intros HW HH aspect Ha x.
  destruct (aspect_bounds W H HW HH) as (Ra & F1 & F2 & Hr).
  fold aspect in Ra, F1, F2, Hr. set (a := value A aspect) in *.
  pose proof (of_int_value 8192 ltac:(lia)) as E.
  change (inject_Z 8192) with 8192 in E.
  destruct (inject_Z_bounds W 1 2147483648 ltac:(lia)) as [W1 W2].
  destruct (inject_Z_bounds H 1 2147483648 ltac:(lia)) as [H1 H2].
  assert (0 < a) as Hpos by (destruct Ra; lra).
  assert (rounds A (value A (of_int A 8192) * a)
            (value A (mul A (of_int A 8192) aspect))) as Hn.
  { apply (mul_rounds A HA); [unfold in_range; rewrite E; lra|done]. }
  set (n := value A (mul A (of_int A 8192) aspect)) in *.
  assert (0 < value A (of_int A 8192) * a) as Hp by (rewrite E; lra).
  destruct (rounds_bounds _ n Hp Hn) as [N1 N2].
  rewrite E in N1, N2.
  assert (n <= 8192) as N3.
  { rewrite <- E. apply (rounds_below _ _ _ Hn). rewrite E. lra. }
  destruct (round_aspect_near (mul A (of_int A 8192) aspect) key)
    as (Hx & X1 & X2); [fold n; lra|done|].
  fold n in X1, X2. fold x in Hx, X1, X2.
  assert (a * inject_Z H <= inject_Z H) as AH by nra.
  assert (W ≤ H)%Z as HWH.
  { apply Z.lt_succ_r. rewrite Zlt_Qlt. unfold Z.succ.
    rewrite inject_Z_plus. change (inject_Z 1) with 1. lra. }
  split_and!; [lia|lia|done| |].
  - apply within_a_pixel.
    + assert (inject_Z x * inject_Z H < (n + 1) * inject_Z H) by nra.
      assert (n * inject_Z H
              <= (8192 * a + 8192 * a * (1 # 9007199254740992)) * inject_Z H)
        by nra.
      nra.
    + assert ((n - 1) * inject_Z H < inject_Z x * inject_Z H) by nra.
      assert ((8192 * a - 8192 * a * (1 # 9007199254740992)) * inject_Z H
              <= n * inject_Z H) by nra.
      nra.
  - intros ->.
    assert (a == 1) as Ea.
    { transitivity (inject_Z H / inject_Z H); [|field; lra].
      apply (rounds_exact _ _ (of_int A 1)); [done|].
      rewrite (of_int_value 1 ltac:(lia)). change (inject_Z 1) with 1.
      field. lra. }
    assert (n == 8192) as En.
    { transitivity (value A (of_int A 8192) * a); [|rewrite E, Ea; ring].
      apply (rounds_exact _ _ (of_int A 8192)); [done|].
      rewrite E, Ea. ring. }
    rewrite En in X1, X2.
    assert (8191 < x)%Z by (rewrite Zlt_Qlt; change (inject_Z 8191) with 8191; lra).
    lia.
Qed.


(* The other branch: the height is computed. *)
Lemma computed_height (W H : Z) (key : Z → Q) :
  (0 < W < 2147483648)%Z → (0 < H < 2147483648)%Z →
  let aspect := div A (of_int A W) (of_int A H) in
  ¬ value A aspect <= 1 →
  let y := PIL.round_aspect A (div A (of_int A 8192) aspect) key in
  (1 ≤ y ≤ 8192)%Z ∧ (H < W)%Z
  ∧ (Z.abs (y * W - 8192 * H) ≤ W)%Z.
Proof.
  intros HW HH aspect Ha y.
  destruct (aspect_bounds W H HW HH) as (Ra & F1 & F2 & Hr).
  fold aspect in Ra, F1, F2, Hr. set (a := value A aspect) in *.
  pose proof (of_int_value 8192 ltac:(lia)) as E.
  change (inject_Z 8192) with 8192 in E.
  destruct (inject_Z_bounds W 1 2147483648 ltac:(lia)) as [W1 W2].
  destruct (inject_Z_bounds H 1 2147483648 ltac:(lia)) as [H1 H2].
  assert (1 < a) as Hgt by (apply Qnot_le_lt; done).
  assert (H < W)%Z as HHW.
  { apply Z.nle_gt. intros Hle. apply Ha. fold a.
    pose proof (of_int_value 1 ltac:(lia)) as E1.
    change (inject_Z 1) with 1 in E1. rewrite <- E1.
    apply (rounds_below _ _ _ Hr). rewrite E1.
    apply Qle_shift_div_r; [lra|]. rewrite Zle_Qle in Hle. lra. }
  assert (rounds A (value A (of_int A 8192) / a)
            (value A (div A (of_int A 8192) aspect))) as Hn.
  { apply (div_rounds A HA); [unfold in_range; rewrite E; lra|done]. }
  set (n := value A (div A (of_int A 8192) aspect)) in *.
  set (e := value A (of_int A 8192) / a) in *.
  assert (e * a == 8192) as Ee by (unfold e; rewrite E; field; lra).
  assert (0 < e) as He.
  { unfold e. apply Qlt_shift_div_l; [lra|]. rewrite E. lra. }
  assert (e <= 8192) as He'.
  { unfold e. apply Qle_shift_div_r; [lra|]. rewrite E. lra. }
  destruct (rounds_bounds e n He Hn) as [N1 N2].
  assert (n <= 8192) as N3.
  { rewrite <- E. apply (rounds_below _ _ _ Hn). rewrite E. done. }
  destruct (round_aspect_near (div A (of_int A 8192) aspect) key)
    as (Hy & Y1 & Y2); [fold n; lra|done|].
  fold n in Y1, Y2. fold y in Hy, Y1, Y2.
  split_and!; [lia|lia|done|].
  apply within_a_pixel.
  - assert (inject_Z y * inject_Z W < (n + 1) * inject_Z W) by nra.
    assert (n * inject_Z W
            <= (e + e * (1 # 9007199254740992)) * inject_Z W) by nra.
    assert (e * (inject_Z W - inject_Z W * (1 # 9007199254740992))
            <= 8192 * inject_Z H) by nra.
    nra.
  - assert ((n - 1) * inject_Z W < inject_Z y * inject_Z W) by nra.
    assert ((e - e * (1 # 9007199254740992)) * inject_Z W
            <= n * inject_Z W) by nra.
    assert (8192 * inject_Z H
            <= e * (inject_Z W + inject_Z W * (1 # 9007199254740992))) by nra.
    nra.
Qed.


(* An aspect that is a whole number dividing 8192: the height is exact. *)
Lemma computed_height_exact (W H m k : Z) (key : Z → Q) :
  (0 < H < 2147483648)%Z → (1 < m)%Z → (0 < k)%Z →
  (W = m * H)%Z → (8192 = k * m)%Z →
  PIL.round_aspect A
    (div A (of_int A 8192) (div A (of_int A W) (of_int A H))) key = k.
Proof.
  intros HH Hm Hk -> Hkm.
  assert (m ≤ 8192 ∧ k ≤ 8192)%Z as [Hm' Hk'] by nia.
  assert (0 < m * H < 17592186044416)%Z as HW by nia.
  pose proof (of_int_value 8192 ltac:(lia)) as E.
  change (inject_Z 8192) with 8192 in E.
  pose proof (of_int_value (m * H) ltac:(lia)) as EW.
  pose proof (of_int_value H ltac:(lia)) as EH.
  pose proof (of_int_value m ltac:(lia)) as Em.
  pose proof (of_int_value k ltac:(lia)) as Ek.
  destruct (inject_Z_bounds (m * H) 1 17592186044416 ltac:(lia)) as [W1 W2].
  destruct (inject_Z_bounds H 1 2147483648 ltac:(lia)) as [H1 H2].
  destruct (inject_Z_bounds m 2 8192 ltac:(lia)) as [M1 M2].
  destruct (inject_Z_bounds k 1 8192 ltac:(lia)) as [K1 K2].
  set (aspect := div A (of_int A (m * H)) (of_int A H)).
  assert (value A aspect == inject_Z m) as Ea.
  { transitivity (value A (of_int A (m * H)) / value A (of_int A H)).
    - apply (rounds_exact _ _ (of_int A m)).
      + apply (div_rounds A HA); unfold in_range; rewrite ?EW, ?EH; lra.
      + rewrite Em, EW, EH, inject_Z_mult. field. lra.
    - rewrite EW, EH, inject_Z_mult. field. lra. }
  assert (8192 == inject_Z k * inject_Z m) as Ekm.
  { rewrite <- inject_Z_mult, <- Hkm. reflexivity. }
  assert (value A (div A (of_int A 8192) aspect) == inject_Z k) as En.
  { transitivity (value A (of_int A 8192) / value A aspect).
    - apply (rounds_exact _ _ (of_int A k)).
      + apply (div_rounds A HA); unfold in_range; rewrite ?E, ?Ea; lra.
      + rewrite Ek, E, Ea, Ekm. field. lra.
    - rewrite E, Ea, Ekm. field. lra. }
  destruct (round_aspect_near (div A (of_int A 8192) aspect) key)
    as (Hy & Y1 & Y2); [rewrite En; lra..|].
  rewrite En in Y1, Y2.
  set (y := PIL.round_aspect A (div A (of_int A 8192) aspect) key) in *.
  assert (k - 1 < y)%Z.
  { rewrite Zlt_Qlt. unfold Z.sub. rewrite inject_Z_plus, inject_Z_opp.
    change (inject_Z 1) with 1. lra. }
  assert (y < k + 1)%Z.
  { rewrite Zlt_Qlt, inject_Z_plus. change (inject_Z 1) with 1. lra. }
  lia.
Qed.

(* The size computed for an image that does not fit the box. *)
Lemma preserve_aspect_ratio_fits (img : image) :
  (0 < width img < 2147483648)%Z → (0 < height img < 2147483648)%Z →
  (8192 < width img ∨ 8192 < height img)%Z →
  ∃ x y,
    PIL.preserve_aspect_ratio A 8192 8192 img = Some (x, y)
    ∧ (1 ≤ x ≤ 8192)%Z ∧ (1 ≤ y ≤ 8192)%Z ∧ Z.max x y = 8192%Z
    ∧ (Z.abs (x * height img - y * width img)
       ≤ Z.max (width img) (height img))%Z
    ∧ (width img ≤ height img → x ≤ y)%Z
    ∧ (height img ≤ width img → y ≤ x)%Z
    ∧ (width img = 10000 → height img = 5000 → x = 8192 ∧ y = 4096)%Z.
Proof.
  intros HW HH Hbig. unfold PIL.preserve_aspect_ratio.
  replace ((width img <=? 8192) && (height img <=? 8192))%Z with false by lia.
  cbv zeta.
  destruct (Qle_bool _ _) eqn:Etest.
  - apply Qle_bool_iff in Etest. rewrite one_value in Etest.
    destruct (computed_width (width img) (height img)
                (λ n, Qabs (value A (sub A
                   (div A (of_int A (width img)) (of_int A (height img)))
                   (div A (of_int A n) (of_int A 8192))))) HW HH Etest)
      as (Hx & Hle & Hnear & Heq).
    eexists _, _. split; [done|]. split_and!; lia.
  - assert (¬ (value A (div A (of_int A (width img)) (of_int A (height img)))
               <= 1)%Q) as Hn.
    { intros Hle. rewrite <- one_value in Hle. apply Qle_bool_iff in Hle.
      congruence. }
    destruct (computed_height (width img) (height img)
                (λ n, if (n =? 0)%Z then 0%Q
                      else Qabs (value A (sub A
                        (div A (of_int A (width img)) (of_int A (height img)))
                        (div A (of_int A 8192) (of_int A n))))) HW HH Hn)
      as (Hy & Hlt & Hnear).
    eexists _, _. split; [done|]. split_and!; try lia.
    intros EW EH. split; [done|]. rewrite EW, EH.
    apply (computed_height_exact 10000 5000 2 4096); lia.
Qed.

End SizeRule.

Lemma exact_is_ieee_like : ieee_like Float.exact.
Proof.
  assert (∀ q : Q, (0 < q)%Q → rounds Float.exact q q) as Hr.
  { intros q Hq. unfold rounds. split_and!; [|done|done].
    apply Qabs_Qle_condition. split; lra. }
  split.
  - intros z _. reflexivity.
  - intros a b [Ha _] [Hb _]. apply Hr. simpl in *.
    apply Qlt_shift_div_l; lra.
  - intros a b [Ha _] [Hb _]. apply Hr. simpl in *. nra.
Qed.

Section Preprocessing.

Local Open Scope Z_scope.

Lemma thumbnail_mode A x y img : mode (PIL.thumbnail A x y img) = mode img.
Proof.
  unfold PIL.thumbnail.
  destruct (PIL.preserve_aspect_ratio A x y img) as [[??]|]; done.
Qed.

(* The image handed to the JPEG writer: always RGB, with the sides of
   the input unless it is resized. *)
Lemma converted_image (img : image) :
  let rgb := if bool_decide (mode img ≠ lit "RGB")
             then PIL.convert (lit "RGB") img else img in
  mode rgb = lit "RGB" ∧ width rgb = width img ∧ height rgb = height img.
Proof.
  cbv zeta. case_bool_decide as Hd; [done|].
  split; [|done]. destruct (decide (mode img = lit "RGB")); [done|].
  by destruct Hd.
Qed.

Lemma save_jpeg_rgb (img : image) :
  mode img = lit "RGB" → 1 ≤ width img ≤ 8192 → 1 ≤ height img ≤ 8192 →
  PIL.save_jpeg img = Ok {| decoded := img |}.
Proof.
  intros Hm Hw Hh. unfold PIL.save_jpeg.
  replace ((width img <=? 0) || (height img <=? 0)) with false by lia.
  rewrite Hm. cbn [negb].
  replace ((65500 <? width img) || (65500 <? height img)) with false by lia.
  done.
Qed.



(** C8: when both sides of the input are at most 8192, the payload
    has the sides of the input. *)
Theorem small_image_keeps_its_size
    (w : world) (image_path : pystr) (img : image) :
  image_open w image_path = Ok img →
  0 < width img ≤ 8192 → 0 < height img ≤ 8192 →
  ∃ b, encode_image_to_base64 w image_path = Ok b
       ∧ width (decoded b) = width img
       ∧ height (decoded b) = height img.
Proof.
  intros Ho Hw Hh.
  unfold encode_image_to_base64, encode_image_to_base64_in. rewrite Ho.
  destruct (converted_image img) as (Em & Ew & Eh).
  set (rgb := if bool_decide (mode img ≠ lit "RGB")
              then PIL.convert (lit "RGB") img else img) in *.
  cbv zeta. rewrite Ew, Eh. unfold max_size.
  replace ((8192 <? width img) || (8192 <? height img)) with false by lia.
  rewrite save_jpeg_rgb by (first [done | lia]).
  eexists. split; [done|]. simpl. by rewrite Ew, Eh.
Qed.

Lemma small_image_keeps_its_size_witness :
  ∃ b, encode_image_to_base64 sample_world (lit "images/a.jpg") = Ok b
       ∧ width (decoded b) = 1024 ∧ height (decoded b) = 768.
Proof.
  apply (small_image_keeps_its_size sample_world (lit "images/a.jpg")
           {| mode := lit "RGB"; width := 1024; height := 768 |});
    [reflexivity | simpl; lia | simpl; lia].
Defined.

End Preprocessing.

(** ** Words and characters *)

Section Counts.

Lemma split_from_length tok s :
  length (split_from tok s)
  = match tok with
    | Some _ => S (count_runs true s)
    | None => count_runs false s
    end.
Proof.
  revert tok. induction s as [|c s IH]; intros tok; cbn [split_from count_runs].
  - by destruct tok.
  - destruct (isspace c).
    + destruct tok; cbn [length]; by rewrite IH.
    + rewrite IH. by destruct tok.
Qed.

Lemma split_from_tokens tok s :
  (∀ t, tok = Some t → t ≠ [] ∧ Forall (λ c, isspace c = false) t) →
  Forall (λ t, t ≠ [] ∧ Forall (λ c, isspace c = false) t) (split_from tok s)
  ∧ concat (split_from tok s)
    = default [] tok ++ filter (λ c, isspace c = false) s.
Proof.
  revert tok. induction s as [|c s IH]; intros tok Htok; cbn [split_from].
  - destruct tok as [t|]; cbn [default concat].
    + split; [|by rewrite filter_nil, !app_nil_r]. constructor; auto.
    + split; [constructor|done].
  - rewrite filter_cons. destruct (isspace c) eqn:Ec.
    + rewrite decide_False by done.
      destruct (IH None) as [IH1 IH2]; [done|].
      destruct tok as [t|]; cbn [default concat]; [|done].
      split; [constructor; auto|]. by rewrite IH2.
    + rewrite decide_True by done.
      destruct (IH (Some (default [] tok ++ [c]))) as [IH1 IH2].
      { intros t [= <-]. split; [by destruct (default [] tok)|].
        apply Forall_app. split; [|by constructor].
        destruct tok as [t|]; [by apply Htok|constructor]. }
      split; [done|]. rewrite IH2. cbn [from_option id]. by rewrite <- app_assoc.
Qed.

End Counts.

(** ** What the codec accepts *)

Section Encodable.

Lemma encodable_no_surrogate s : no_surrogate s → Codec.encodable s = true.
Proof.
  unfold no_surrogate, Codec.encodable, Codec.is_surrogate.
  induction 1 as [|c s Hc _ IH]; [done|]. cbn [forallb].
  rewrite IH, andb_true_r. apply negb_true_iff, andb_false_iff.
  rewrite !N.leb_gt. lia.
Qed.

Lemma no_surrogate_app a b :
  no_surrogate (a ++ b) ↔ no_surrogate a ∧ no_surrogate b.
Proof. apply Forall_app. Qed.

Lemma lit_no_surrogate s : no_surrogate (lit s).
Proof.
  unfold no_surrogate, lit. apply Forall_fmap, Forall_forall.
  intros a _. cbn. pose proof (Ascii.N_ascii_bounded a). lia.
Qed.

Lemma str_of_nat_no_surrogate n : no_surrogate (str_of_nat n).
Proof. apply lit_no_surrogate. Qed.

Lemma times_no_surrogate c n :
  ¬ (55296 ≤ c ∧ c ≤ 57343)%N → no_surrogate (times c n).
Proof. intros Hc. by apply Forall_replicate. Qed.

Lemma nl_no_surrogate : no_surrogate nl.
Proof. apply (lit_no_surrogate (String (Ascii.ascii_of_N 10) EmptyString)). Qed.

Lemma basename_suffix p : Path.basename p `suffix_of` p.
Proof.
  induction p as [|c p IH]; [done|]. cbn [Path.basename].
  destruct (bool_decide (Path.sep ∈ p)); [by apply suffix_cons_r|].
  destruct (c =? Path.sep)%N; [by apply suffix_cons_r|done].
Qed.

Lemma basename_no_surrogate p :
  no_surrogate p → no_surrogate (Path.basename p).
Proof.
  intros Hp. destruct (basename_suffix p) as [k Hk].
  rewrite Hk in Hp. by apply no_surrogate_app in Hp as [_ ?].
Qed.

Lemma join_no_surrogate a b :
  no_surrogate a → no_surrogate b → no_surrogate (Path.join a b).
Proof.
  intros Ha Hb.
  assert (no_surrogate (a ++ b)) by (by apply no_surrogate_app).
  assert (no_surrogate (a ++ [Path.sep] ++ b)).
  { apply no_surrogate_app. split; [done|]. constructor; [|done].
    unfold Path.sep. lia. }
  unfold Path.join.
  destruct b as [|c b]; [by destruct (_ || _)|].
  destruct (c =? Path.sep)%N; [done|]. by destruct (_ || _).
Qed.

End Encodable.

(** ** Whole runs *)

#[local] Arguments lit : simpl never.
#[local] Arguments str_of_nat : simpl never.
#[local] Arguments report_block : simpl never.
#[local] Arguments summary_entry : simpl never.
Section Runs.
Context (w : world).

Lemma alter_present (m : gmap pystr pystr) f g c :
  m !! f = Some c → alter g f m = <[f := g c]> m.
Proof.
  intros Hc. apply map_eq. intros k. rewrite lookup_alter, lookup_insert.
  case_decide; [subst; by rewrite Hc|done].
Qed.

Lemma bind_run {A B} (m : M A) (k : A → M B) st a st' :
  m st = (Ok a, st') → (m ≫= k) st = k a st'.
Proof. unfold mbind, M_bind. by intros ->. Qed.

Lemma bind_raise {A B} (m : M A) (k : A → M B) st e st' :
  m st = (Raise e, st') → (m ≫= k) st = (Raise e, st').
Proof. unfold mbind, M_bind. by intros ->. Qed.

Lemma print_run s st :
  print s st
  = (Ok (), {| console := console st ++ [s]; dirs := dirs st;
               files := files st; calls := calls st |}).
Proof. done. Qed.

Lemma writes_run f chunks st c :
  files st !! f = Some c →
  Forall no_surrogate chunks →
  ∃ u, mapM (write f) chunks st
  = (Ok u,
     {| console := console st; dirs := dirs st;
        files := <[f := c ++ concat chunks]> (files st); calls := calls st |}).
Proof.
  intros Hc He. revert st c Hc.
  induction He as [|x chunks Hx _ IH]; intros st c Hc.
  - exists []. simpl. unfold mret, M_ret. rewrite app_nil_r, insert_id by done.
    by destruct st.
  - simpl.
    destruct (IH {| console := console st; dirs := dirs st;
                    files := <[f := c ++ x]> (files st); calls := calls st |}
                (c ++ x)) as [u Hu].
    { simpl. by rewrite lookup_insert_eq. }
    exists (() :: u).
    erewrite bind_run; last first.
    { unfold write. rewrite (encodable_no_surrogate _ Hx).
      rewrite (alter_present _ _ _ c) by done. done. }
    erewrite bind_run by exact Hu. simpl.
    unfold mret, M_ret. rewrite insert_insert_eq. by rewrite <- app_assoc.
Qed.

Ltac step H := rewrite (bind_run _ _ _ _ _ H); cbn [console dirs files calls].

Ltac no_surrogates :=
  repeat first
    [ assumption
    | apply lit_no_surrogate
    | apply str_of_nat_no_surrogate
    | apply nl_no_surrogate
    | apply basename_no_surrogate
    | apply times_no_surrogate; lia
    | apply Forall_take
    | apply no_surrogate_app; split ].

Ltac chunks_no_surrogate :=
  repeat first
    [ apply Forall_nil_2
    | apply Forall_cons_2; [solve [no_surrogates]|] ].

Lemma report_block_no_surrogate i p t :
  no_surrogate p → no_surrogate t → Forall no_surrogate (report_block i p t).
Proof. intros Hp Ht. unfold report_block. chunks_no_surrogate. Qed.

Lemma summary_entry_no_surrogate i p t :
  no_surrogate p → no_surrogate t → Forall no_surrogate (summary_entry i p t).
Proof.
  intros Hp Ht. unfold summary_entry, slice_to. chunks_no_surrogate.
Qed.

Lemma report_header_no_surrogate date n :
  no_surrogate date → Forall no_surrogate (report_header date n).
Proof. intros Hd. unfold report_header. chunks_no_surrogate. Qed.

Lemma summary_header_no_surrogate date n :
  no_surrogate date → Forall no_surrogate (summary_header date n).
Proof. intros Hd. unfold summary_header. chunks_no_surrogate. Qed.

Lemma report_loop_run f total i l st c :
  files st !! f = Some c →
  (∀ p, p ∈ l → no_surrogate p) →
  (∀ n p, p ∈ l → no_surrogate (extraction_text w n p)) →
  report_loop w f total i l st
  = (Ok (),
     {| console := console st ++ progress_lines total i l;
        dirs := dirs st;
        files := <[f := c ++ concat (report_blocks i l (texts_from w (calls st) l))]> (files st);
        calls := calls_after w (calls st) l |}).
Proof.
  revert i st c. induction l as [|p l IH]; intros i st c Hc Hp Ht.
  - simpl. unfold mret, M_ret, progress_lines, report_blocks. simpl.
    rewrite !app_nil_r, insert_id by done. by destruct st.
  - cbn [report_loop].
    assert (Forall no_surrogate
              (report_block i p (extraction_text w (calls st) p))) as Hb.
    { apply report_block_no_surrogate; [apply Hp | apply Ht]; left. }
    step (print_run (lit "Processing " ++ str_of_nat i ++ lit "/" ++ str_of_nat total
             ++ lit ": " ++ Path.basename p) st).
    step (extract_text_from_image_run w p
            {| console := console st ++ [lit "Processing " ++ str_of_nat i ++ lit "/" ++ str_of_nat total
             ++ lit ": " ++ Path.basename p]; dirs := dirs st; files := files st; calls := calls st |}).
    match goal with |- (mapM _ _ ≫= _) ?s = _ =>
      destruct (writes_run f (report_block i p (extraction_text w (calls st) p)) s c Hc Hb)
        as [u Hu]
    end.
    step Hu.
    erewrite IH; [|cbn [files]; by rewrite lookup_insert_eq
                  |intros; apply Hp; by right|intros; apply Ht; by right].
    cbn [console dirs files calls].
    rewrite insert_insert_eq.
    unfold progress_lines, report_blocks.
    cbn [length seq zip_with zip concat fst snd texts_from calls_after].
    rewrite <- !app_assoc, concat_app. done.
Qed.

Lemma summary_loop_run f i l st c :
  files st !! f = Some c →
  (∀ p, p ∈ l → no_surrogate p) →
  (∀ n p, p ∈ l → no_surrogate (extraction_text w n p)) →
  summary_loop w f i l st
  = (Ok (),
     {| console := console st;
        dirs := dirs st;
        files := <[f := c ++ concat (summary_entries i l (texts_from w (calls st) l))]> (files st);
        calls := calls_after w (calls st) l |}).
Proof.
  revert i st c. induction l as [|p l IH]; intros i st c Hc Hp Ht.
  - simpl. unfold mret, M_ret, summary_entries. simpl.
    rewrite !app_nil_r, insert_id by done. by destruct st.
  - cbn [summary_loop].
    assert (Forall no_surrogate
              (summary_entry i p (extraction_text w (calls st) p))) as Hb.
    { apply summary_entry_no_surrogate; [apply Hp | apply Ht]; left. }
    step (extract_text_from_image_run w p st).
    match goal with |- (mapM _ _ ≫= _) ?s = _ =>
      destruct (writes_run f (summary_entry i p (extraction_text w (calls st) p)) s c Hc Hb)
        as [u Hu]
    end.
    step Hu.
    erewrite IH; [|cbn [files]; by rewrite lookup_insert_eq
                  |intros; apply Hp; by right|intros; apply Ht; by right].
    cbn [console dirs files calls].
    rewrite insert_insert_eq.
    unfold summary_entries.
    cbn [length seq zip_with zip concat fst snd texts_from calls_after].
    rewrite <- !app_assoc, concat_app. done.
Qed.

Lemma texts_from_length n l : length (texts_from w n l) = length l.
Proof. revert n; induction l as [|p l IH]; intros n; simpl; [done|]. by rewrite IH. Qed.

(* Paths of the two output files. *)

Lemma basename_cons c p :
  Path.basename (c :: p)
  = if bool_decide (Path.sep ∈ p) then Path.basename p
    else if c =? Path.sep then p else c :: p.
Proof. done. Qed.

Lemma basename_after_sep a name :
  Path.sep ∉ name → Path.basename (a ++ Path.sep :: name) = name.
Proof.
  intros Hn. induction a as [|c a IH]; cbn [app]; rewrite basename_cons.
  - rewrite bool_decide_eq_false_2 by done. by rewrite N.eqb_refl.
  - rewrite bool_decide_eq_true_2; [done|]. set_solver.
Qed.

Lemma dirname_in_output_dir name :
  Path.sep ∉ name → Path.dirname (output_dir ++ Path.sep :: name) = output_dir.
Proof.
  intros Hn. unfold Path.dirname. rewrite basename_after_sep by done.
  replace (length (output_dir ++ Path.sep :: name) - length name)%nat
    with (length (output_dir ++ [Path.sep])).
  2: { rewrite !length_app. simpl. lia. }
  change (output_dir ++ Path.sep :: name)
    with ((output_dir ++ [Path.sep]) ++ name).
  rewrite take_app_length. done.
Qed.

Lemma output_file_eq ts :
  output_file ts = output_dir ++ Path.sep :: (lit "extracted_text_" ++ ts ++ lit ".txt").
Proof. done. Qed.

Lemma summary_file_eq ts :
  summary_file ts = output_dir ++ Path.sep :: (lit "summary_" ++ ts ++ lit ".txt").
Proof. done. Qed.

Lemma output_file_ne_summary_file ts : output_file ts ≠ summary_file ts.
Proof. rewrite output_file_eq, summary_file_eq. intros H. discriminate H. Qed.

Lemma sep_not_in_name pre ts :
  bool_decide (Path.sep ∈ lit pre) = false →
  Path.sep ∉ ts → Path.sep ∉ lit pre ++ ts ++ lit ".txt".
Proof.
  intros Hp Ht. apply bool_decide_eq_false_1 in Hp.
  assert (Path.sep ∉ lit ".txt") by (by apply (bool_decide_eq_false_1 _)).
  rewrite !elem_of_app. tauto.
Qed.

Lemma open_w_run p st :
  p ∉ dirs st → Path.dirname p ∈ dirs st →
  open_w p st
  = (Ok p, {| console := console st; dirs := dirs st;
              files := <[p := []]> (files st); calls := calls st |}).
Proof.
  intros Hp Hd. unfold open_w.
  rewrite (bool_decide_eq_false_2 _ Hp), (bool_decide_eq_true_2 _ Hd).
  by rewrite orb_true_r.
Qed.

Lemma process_images_run l st :
  let ts := now_strftime w 0 stamp_format in
  let sorted := sort l in
  let n := length sorted in
  Path.sep ∉ ts →
  output_dir ∈ dirs st →
  output_file ts ∉ dirs st → summary_file ts ∉ dirs st →
  (∀ p, p ∈ l → no_surrogate p) →
  (∀ n p, p ∈ l → no_surrogate (extraction_text w n p)) →
  no_surrogate (now_strftime w 1 date_format) →
  no_surrogate (now_strftime w 2 date_format) →
  process_images w l st
  = (Ok (),
     {| console :=
          console st
          ++ [lit "Processing " ++ str_of_nat n ++ lit " images...";
              lit "Output will be saved to: " ++ output_file ts]
          ++ progress_lines n 1 sorted
          ++ [nl ++ lit "Text extraction completed!";
              lit "Results saved to: " ++ output_file ts;
              lit "Summary saved to: " ++ summary_file ts];
        dirs := dirs st;
        files :=
          <[summary_file ts :=
              concat (summary_header (now_strftime w 2 date_format) n)
              ++ concat (summary_entries 1 sorted
                           (texts_from w (calls_after w (calls st) sorted) sorted))]>
          (<[output_file ts :=
               concat (report_header (now_strftime w 1 date_format) n)
               ++ concat (report_blocks 1 sorted (texts_from w (calls st) sorted))]>
             (files st));
        calls := calls_after w (calls_after w (calls st) sorted) sorted |}).
Proof.
  intros ts sorted n Hts Hd Ho Hs Hp Ht Hd1 Hd2. unfold process_images.
  fold ts. fold sorted. fold n.
  assert (∀ p, p ∈ sorted → no_surrogate p) as Hp'.
  { intros p Hin. apply Hp. unfold sorted in Hin.
    by rewrite sort_Permutation in Hin. }
  assert (∀ k p, p ∈ sorted → no_surrogate (extraction_text w k p)) as Ht'.
  { intros k p Hin. apply Ht. unfold sorted in Hin.
    by rewrite sort_Permutation in Hin. }
  assert (Path.dirname (output_file ts) = output_dir) as Ed1.
  { rewrite output_file_eq. by apply dirname_in_output_dir, sep_not_in_name. }
  assert (Path.dirname (summary_file ts) = output_dir) as Ed2.
  { rewrite summary_file_eq. by apply dirname_in_output_dir, sep_not_in_name. }
  step (print_run (lit "Processing " ++ str_of_nat n ++ lit " images...") st).
  match goal with |- (print ?m ≫= _) ?s = _ => step (print_run m s) end.
  match goal with |- (open_w ?p ≫= _) ?s = _ =>
    rewrite (bind_run _ _ _ _ _ (open_w_run p s Ho ltac:(by rewrite Ed1)))
  end.
  cbn [console dirs files calls].
  match goal with |- (mapM (write ?f) ?ch ≫= _) ?s = _ =>
    destruct (writes_run f ch s [] ltac:(apply lookup_insert_eq)
                (report_header_no_surrogate _ _ Hd1)) as [u Hu]
  end.
  step Hu. rewrite insert_insert_eq, app_nil_l.
  match goal with |- (report_loop _ ?f ?t ?i ?l ≫= _) ?s = _ =>
    rewrite (bind_run _ _ _ _ _
               (report_loop_run f t i l s _ ltac:(apply lookup_insert_eq) Hp' Ht'))
  end.
  cbn [console dirs files calls]. rewrite insert_insert_eq.
  match goal with |- (print ?m ≫= _) ?s = _ => step (print_run m s) end.
  match goal with |- (print ?m ≫= _) ?s = _ => step (print_run m s) end.
  match goal with |- (open_w ?p ≫= _) ?s = _ =>
    rewrite (bind_run _ _ _ _ _ (open_w_run p s Hs ltac:(by rewrite Ed2)))
  end.
  cbn [console dirs files calls].
  match goal with |- (mapM (write ?f) ?ch ≫= _) ?s = _ =>
    destruct (writes_run f ch s [] ltac:(apply lookup_insert_eq)
                (summary_header_no_surrogate _ _ Hd2)) as [u' Hu']
  end.
  step Hu'. rewrite insert_insert_eq, app_nil_l.
  match goal with |- (summary_loop _ ?f ?i ?l ≫= _) ?s = _ =>
    rewrite (bind_run _ _ _ _ _
               (summary_loop_run f i l s _ ltac:(apply lookup_insert_eq) Hp' Ht'))
  end.
  cbn [console dirs files calls]. rewrite insert_insert_eq.
  rewrite print_run. cbn [console dirs files calls].
  rewrite <- !app_assoc. done.
Qed.

Lemma check_environment_ok st :
  has_credential w → models_list w = None →
  check_environment w st
  = (Ok (), {| console := console st ++ [connected_notice]; dirs := dirs st;
               files := files st; calls := calls st |}).
Proof.
  intros (key & Hk & Hne) Hm. unfold check_environment. rewrite Hk, Hm.
  rewrite bool_decide_eq_false_2 by done.
  rewrite bool_decide_eq_false_2 by congruence.
  done.
Qed.

Lemma check_environment_missing st :
  getenv w (lit "OPENAI_API_KEY") = None
  ∨ getenv w (lit "OPENAI_API_KEY") = Some [] →
  check_environment w st
  = (Raise {| exn_class := lit "ValueError";
              exn_str := lit "OPENAI_API_KEY not found in environment variables. Please check your .env file." |},
     st).
Proof.
  intros [H|H]; unfold check_environment; rewrite H.
  - by rewrite bool_decide_eq_true_2.
  - rewrite bool_decide_eq_false_2 by done. by rewrite bool_decide_eq_true_2.
Qed.

(* The state in which the images directory is listed. *)
Lemma main_until_listing {B} (k : list pystr → M B) st r :
  has_credential w → models_list w = None →
  output_dir ∈ dirs st ∨ output_dir ∈ dom (files st)
  ∨ makedirs_error w output_dir = None →
  let st1 :=
    {| console := console st ++ [connected_notice];
       dirs := if bool_decide (output_dir ∈ dom (files st)) then dirs st
               else {[output_dir]} ∪ dirs st;
       files := files st; calls := calls st |} in
  (check_environment w;;
   there ← path_exists output_dir;
   (if negb there then makedirs w output_dir else mret ());;
   entries ← lift r;
   k entries) st
  = match r with
    | Ok entries => k entries st1
    | Raise e => (Raise e, st1)
    end.
Proof.
  intros Hc Hm Hd st1. unfold st1.
  step (check_environment_ok st Hc Hm).
  unfold path_exists at 1. unfold mbind at 1, M_bind at 1.
  cbn [console dirs files calls].
  destruct (bool_decide (output_dir ∈ dirs st)) eqn:Ed; cbn [negb orb].
  - apply bool_decide_eq_true_1 in Ed.
    assert ({[output_dir]} ∪ dirs st = dirs st) as ->.
    { by apply subseteq_union_1_L, singleton_subseteq_l. }
    unfold mbind, M_bind, mret, M_ret, lift.
    destruct (bool_decide (output_dir ∈ dom (files st))); by destruct r.
  - apply bool_decide_eq_false_1 in Ed.
    destruct (bool_decide (output_dir ∈ dom (files st))) eqn:Ef; cbn [negb].
    + unfold mbind, M_bind, mret, M_ret, lift. by destruct r.
    + apply bool_decide_eq_false_1 in Ef.
      destruct Hd as [?|[?|Hmk]]; [done..|].
      unfold makedirs, mbind, M_bind, lift. rewrite Hmk.
      cbn [console dirs files calls]. by destruct r.
Qed.

Lemma discover_none entries :
  (∀ file, file ∈ entries →
     ¬ ∃ ext, ext ∈ image_extensions ∧ ext `suffix_of` lower file) →
  discover images_dir entries = [].
Proof.
  intros H. induction entries as [|f rest IH]; [done|]. cbn [discover].
  destruct (is_image_name f) eqn:E.
  - apply is_image_name_spec in E. destruct (H f); [left|done].
  - apply IH. intros file Hin. apply H. by right.
Qed.

Lemma extraction_same_service w' n p :
  image_open w' = image_open w → chat_create w' = chat_create w →
  extraction_text w' n p = extraction_text w n p
  ∧ extraction_calls w' n p = extraction_calls w n p.
Proof.
  intros Hi Hc.
  assert (encode_image_to_base64 w' p = encode_image_to_base64 w p) as Ee.
  { unfold encode_image_to_base64, encode_image_to_base64_in. by rewrite Hi. }
  unfold extraction_text, extraction_calls. by rewrite Ee, Hc.
Qed.

Lemma texts_from_same_service w' n l :
  image_open w' = image_open w → chat_create w' = chat_create w →
  texts_from w' n l = texts_from w n l
  ∧ calls_after w' n l = calls_after w n l.
Proof.
  intros Hi Hc. revert n. induction l as [|p l IH]; intros n; [done|].
  cbn [texts_from calls_after].
  destruct (extraction_same_service w' n p Hi Hc) as [-> ->].
  destruct (IH (extraction_calls w n p)) as [-> ->]. done.
Qed.

(* What a run over an encodable listing handles is encodable. *)
Lemma encodable_discovered entries :
  encodable_run w entries →
  (∀ p, p ∈ discover images_dir entries → no_surrogate p)
  ∧ (∀ n p, p ∈ discover images_dir entries →
       no_surrogate (extraction_text w n p)).
Proof.
  intros (Hn & Ht & _). rewrite discover_filter. split.
  - intros p (file & -> & Hin)%list_elem_of_fmap.
    apply list_elem_of_filter in Hin as [_ Hin].
    apply join_no_surrogate; [apply lit_no_surrogate | by apply Hn].
  - intros n p (file & -> & Hin)%list_elem_of_fmap.
    apply list_elem_of_filter in Hin as [_ Hin]. by apply Ht.
Qed.

(* The files as texts. *)

Lemma numbered_blocks {A} (g : nat → pystr * pystr → A) i paths texts :
  zip_with g (seq i (length paths)) (zip paths texts)
  = imap (λ k pt, g (i + k)%nat pt) (zip paths texts).
Proof.
  revert i texts. induction paths as [|p paths IH]; intros i texts; [done|].
  destruct texts as [|t texts]; [done|].
  cbn [length seq zip zip_with imap]. rewrite IH. f_equal.
  - f_equal. lia.
  - apply imap_ext. intros k x _. cbn. f_equal. lia.
Qed.

Lemma concat_blocks {A} (f : nat → A → list pystr) l :
  concat (concat (imap f l)) = concat (imap (λ k x, concat (f k x)) l).
Proof.
  revert f. induction l as [|x l IH]; intros f; [done|].
  cbn [imap concat]. by rewrite concat_app, IH.
Qed.

Lemma report_block_text k (pt : pystr * pystr) :
  concat (report_block (1 + k) pt.1 pt.2)
  = lit "IMAGE " ++ str_of_nat (S k) ++ lit ": "
    ++ Path.basename pt.1 ++ [10]
    ++ replicate 60 45 ++ [10]
    ++ pt.2
    ++ [10; 10] ++ replicate 80 61 ++ [10; 10].
Proof.
  unfold report_block, times, nl. cbn [concat Nat.add].
  by rewrite <- !app_assoc, app_nil_r.
Qed.

Lemma report_text date paths texts :
  concat (report_header date (length paths))
  ++ concat (report_blocks 1 paths texts)
  = expected_report date paths texts.
Proof.
  unfold report_blocks, expected_report.
  rewrite numbered_blocks, concat_blocks.
  erewrite imap_ext by (intros; apply report_block_text).
  unfold report_header, times, nl. cbn [concat].
  by rewrite <- !app_assoc, app_nil_l.
Qed.

Lemma summary_entry_text k (pt : pystr * pystr) :
  concat (summary_entry (1 + k) pt.1 pt.2)
  = str_of_nat (S k) ++ lit ". " ++ Path.basename pt.1 ++ [10]
    ++ lit "   Words: " ++ str_of_nat (count_runs false pt.2)
    ++ lit ", Characters: " ++ str_of_nat (length pt.2) ++ [10]
    ++ lit "   Preview: " ++ take 100 pt.2 ++ lit "..."
    ++ [10; 10].
Proof.
  unfold summary_entry, word_count, char_count, split, slice_to, nl.
  rewrite split_from_length. cbn [concat Nat.add].
  by rewrite <- !app_assoc, app_nil_r.
Qed.

Lemma summary_text date paths texts :
  concat (summary_header date (length paths))
  ++ concat (summary_entries 1 paths texts)
  = expected_summary date paths texts.
Proof.
  unfold summary_entries, expected_summary.
  rewrite numbered_blocks, concat_blocks.
  erewrite imap_ext by (intros; apply summary_entry_text).
  unfold summary_header, times, nl. cbn [concat].
  by rewrite <- !app_assoc, app_nil_l.
Qed.

End Runs.

(* A run that finds images: the whole final state. *)
Lemma main_with_images w st entries :
  let ts := now_strftime w 0 stamp_format in
  let sorted := sort (discover images_dir entries) in
  let n := length sorted in
  has_credential w → models_list w = None →
  output_dir ∈ dirs st
  ∨ ((output_dir ∉ dom (files st)) ∧ makedirs_error w output_dir = None) →
  listdir w images_dir = Ok entries →
  discover images_dir entries ≠ [] →
  Path.sep ∉ ts → output_file ts ∉ dirs st → summary_file ts ∉ dirs st →
  encodable_run w entries →
  main w st
  = (Ok (),
     {| console :=
          console st
          ++ [connected_notice;
              lit "Processing " ++ str_of_nat n ++ lit " images...";
              lit "Output will be saved to: " ++ output_file ts]
          ++ progress_lines n 1 sorted
          ++ [nl ++ lit "Text extraction completed!";
              lit "Results saved to: " ++ output_file ts;
              lit "Summary saved to: " ++ summary_file ts];
        dirs := {[output_dir]} ∪ dirs st;
        files :=
          <[summary_file ts :=
              expected_summary (now_strftime w 2 date_format) sorted
                (texts_from w (calls_after w (calls st) sorted) sorted)]>
          (<[output_file ts :=
               expected_report (now_strftime w 1 date_format) sorted
                 (texts_from w (calls st) sorted)]>
             (files st));
        calls := calls_after w (calls_after w (calls st) sorted) sorted |}).
Proof.
  intros ts sorted n Hc Hm Hd Hl Hne Hts Ho Hs He.
  destruct (encodable_discovered w entries He) as [Hp Ht].
  destruct He as (_ & _ & _ & Hd1 & Hd2).
  unfold main, try_except.
  rewrite main_until_listing; [|done|done|tauto]. rewrite Hl.
  rewrite bool_decide_eq_false_2 by done.
  assert ((if bool_decide (output_dir ∈ dom (files st)) then dirs st
           else {[output_dir]} ∪ dirs st) = {[output_dir]} ∪ dirs st) as ->.
  { destruct Hd as [Hd|[Hd _]].
    - rewrite (subseteq_union_1_L {[output_dir]} (dirs st))
        by (by apply singleton_subseteq_l).
      by destruct (bool_decide _).
    - by rewrite bool_decide_eq_false_2. }
  rewrite process_images_run; cbn [console dirs files calls].
  - fold ts. fold sorted. fold n. unfold n.
    rewrite report_text, summary_text. by rewrite <- !app_assoc.
  - done.
  - apply elem_of_union_l. by apply elem_of_singleton.
  - fold ts. rewrite elem_of_union, elem_of_singleton. intros [E|?]; [|done].
    apply (f_equal length) in E. rewrite output_file_eq, length_app in E.
    simpl in E. lia.
  - fold ts. rewrite elem_of_union, elem_of_singleton. intros [E|?]; [|done].
    apply (f_equal length) in E. rewrite summary_file_eq, length_app in E.
    simpl in E. lia.
  - done.
  - done.
  - done.
  - done.
Qed.

(* A world with the same images and the same service is as encodable. *)
Lemma encodable_run_same_service w w' entries entries' :
  entries' ≡ₚ entries →
  image_open w' = image_open w → chat_create w' = chat_create w →
  now_strftime w' = now_strftime w →
  encodable_run w entries → encodable_run w' entries'.
Proof.
  intros Hp Ei Ec En (Hn & Ht & Hd). unfold encodable_run.
  rewrite En. split_and!; [| |apply Hd..].
  - intros file Hin. apply Hn. by rewrite <- Hp.
  - intros k file Hin.
    destruct (extraction_same_service w w' k (Path.join images_dir file) Ei Ec)
      as [-> _].
    apply Ht. by rewrite <- Hp.
Qed.

(** C3: in a run that finds images and meets no surrogate, the report
    and the summary are the texts spelled out by expected_report and
    expected_summary: one block per image, numbered from 1 along one
    and the same list, the discovered paths sorted in lexicographic
    order, each block with the name of its image and the text extracted
    for it in that pass; and a world that differs only in the order of
    the directory listing gives the same run. *)
Theorem report_and_summary_in_sorted_order
    (w : world) (st : state) (entries : list pystr) :
  let ts := now_strftime w 0 stamp_format in
  let sorted := sort (discover images_dir entries) in
  has_credential w → models_list w = None →
  output_dir ∈ dirs st
  ∨ ((output_dir ∉ dom (files st)) ∧ makedirs_error w output_dir = None) →
  listdir w images_dir = Ok entries →
  discover images_dir entries ≠ [] →
  Path.sep ∉ ts → output_file ts ∉ dirs st → summary_file ts ∉ dirs st →
  encodable_run w entries →
  Sorted str_le sorted
  ∧ sorted ≡ₚ discover images_dir entries
  ∧ (main w st).1 = Ok ()
  ∧ files (main w st).2 !! output_file ts
    = Some (expected_report (now_strftime w 1 date_format) sorted
              (texts_from w (calls st) sorted))
  ∧ files (main w st).2 !! summary_file ts
    = Some (expected_summary (now_strftime w 2 date_format) sorted
              (texts_from w (calls_after w (calls st) sorted) sorted))
  ∧ (∀ w' entries',
       listdir w' images_dir = Ok entries' → entries' ≡ₚ entries →
       getenv w' = getenv w → models_list w' = models_list w →
       image_open w' = image_open w → chat_create w' = chat_create w →
       makedirs_error w' = makedirs_error w →
       now_strftime w' = now_strftime w →
       main w' st = main w st).
Proof.
  intros ts sorted Hc Hm Hd Hl Hne Hts Ho Hs He.
  pose proof (main_with_images w st entries Hc Hm Hd Hl Hne Hts Ho Hs He)
    as Hrun.
  split_and!.
  - apply sort_Sorted.
  - apply sort_Permutation.
  - by rewrite Hrun.
  - rewrite Hrun. cbn [snd files].
    rewrite lookup_insert_ne by (by apply not_eq_sym, output_file_ne_summary_file).
    by rewrite lookup_insert_eq.
  - rewrite Hrun. cbn [snd files]. by rewrite lookup_insert_eq.
  - intros w' entries' Hl' Hp Eg Em Ei Ec Ek En.
    assert (discover images_dir entries' ≡ₚ discover images_dir entries) as Hpd.
    { by apply discover_Permutation. }
    rewrite Hrun, (main_with_images w' st entries').
    + rewrite En, (sort_order_independent _ _ Hpd). fold sorted.
      destruct (texts_from_same_service w w' (calls st) sorted Ei Ec) as [-> ->].
      destruct (texts_from_same_service w w'
                  (calls_after w (calls st) sorted) sorted Ei Ec) as [-> ->].
      done.
    + unfold has_credential. by rewrite Eg.
    + by rewrite Em.
    + by rewrite Ek.
    + done.
    + intros E. rewrite E in Hpd. apply Permutation_nil_l in Hpd. done.
    + by rewrite En.
    + by rewrite En.
    + by rewrite En.
    + by apply (encodable_run_same_service w w' entries entries').
Qed.

Lemma sample_world_has_credential : has_credential sample_world.
Proof. exists (lit "sk-test"). split; [reflexivity | discriminate]. Defined.

(* The names, the texts and the dates of the sample world. *)
Lemma sample_world_is_encodable :
  encodable_run sample_world (lit <$> ["c.bmp"; "notes.txt"; "B.PNG"; "a.jpg"]).
Proof.
  unfold encodable_run. split_and!.
  - intros file Hin.
    repeat (apply elem_of_cons in Hin as [-> | Hin]);
      [apply lit_no_surrogate.. | by apply elem_of_nil in Hin].
  - intros n file Hin.
    repeat (apply elem_of_cons in Hin as [-> | Hin]);
      [apply (bool_decide_unpack _); by vm_compute..
      | by apply elem_of_nil in Hin].
  - apply (bool_decide_unpack _). by vm_compute.
  - apply (bool_decide_unpack _). by vm_compute.
  - apply (bool_decide_unpack _). by vm_compute.
Defined.

Lemma report_and_summary_in_sorted_order_witness :
  let entries := lit <$> ["c.bmp"; "notes.txt"; "B.PNG"; "a.jpg"] in
  let sorted := sort (discover images_dir entries) in
  files (main sample_world fresh).2
    !! output_file (now_strftime sample_world 0 stamp_format)
  = Some (expected_report (now_strftime sample_world 1 date_format) sorted
            (texts_from sample_world 0 sorted)).
Proof.
  refine (proj1 (proj2 (proj2 (proj2
    (report_and_summary_in_sorted_order sample_world fresh
       (lit <$> ["c.bmp"; "notes.txt"; "B.PNG"; "a.jpg"])
       sample_world_has_credential eq_refl _ eq_refl _ _ _ _ _))))).
  - right. split; [apply not_elem_of_empty | reflexivity].
  - vm_compute; discriminate.
  - apply (bool_decide_eq_false_1 _). vm_compute. reflexivity.
  - apply not_elem_of_empty.
  - apply not_elem_of_empty.
  - exact sample_world_is_encodable.
Defined.

(** ** The summary counts, continued *)

(** C4, as the code has it: the second line of a summary entry gives
    the number of white-space separated tokens of the text (its maximal
    runs of non-space characters) and the length of the text in code
    points; for "H17 247°F 16P" these are 3 and 13. *)
Theorem summary_counts_tokens_and_code_points
    (i : nat) (image_path text : pystr) :
  summary_entry i image_path text !! 1%nat
  = Some (lit "   Words: " ++ str_of_nat (count_runs false text)
          ++ lit ", Characters: " ++ str_of_nat (length text) ++ nl)
  ∧ Forall (λ t, t ≠ [] ∧ Forall (λ c, isspace c = false) t) (split text)
  ∧ concat (split text) = filter (λ c, isspace c = false) text
  ∧ summary_entry i image_path example_text !! 1%nat
    = Some (lit "   Words: 3, Characters: 13" ++ nl).
Proof.
  split_and!.
  - unfold summary_entry, word_count, char_count, split.
    by rewrite split_from_length.
  - by apply split_from_tokens.
  - by apply (split_from_tokens None).
  - vm_compute. reflexivity.
Qed.

(** C4 as stated fails: the character count reported for
    "H17 247°F 16P" is 13, not 14. *)
Lemma example_text_is_not_14_characters :
  word_count example_text = 3%nat
  ∧ char_count example_text = 13%nat
  ∧ char_count example_text ≠ 14%nat
  ∧ summary_entry 1 (lit "images/a.jpg") example_text !! 1%nat
    ≠ Some (lit "   Words: 3, Characters: 14" ++ nl).
Proof. split_and!; [reflexivity | reflexivity | discriminate |]. vm_compute. discriminate. Qed.

(** ** Runs that stop early *)

(* main alone, without the credential: check_environment raises and the
   handler prints the notice. *)
Lemma main_without_credential (w : world) (st : state) :
  getenv w (lit "OPENAI_API_KEY") = None
  ∨ getenv w (lit "OPENAI_API_KEY") = Some [] →
  main w st
  = (Ok (),
     {| console := console st ++ [missing_key_notice];
        dirs := dirs st; files := files st; calls := calls st |}).
Proof.
  intros Hk. unfold main, try_except.
  by rewrite (bind_raise _ _ _ _ _ (check_environment_missing w st Hk)).
Qed.



(** C5: when no entry of the input directory has an image extension,
    main returns after the "No image files found" notice, which is the
    last thing printed; no file is created or changed and no remote
    call is issued. *)
Theorem no_image_found_ends_normally
    (w : world) (st : state) (entries : list pystr) :
  has_credential w → models_list w = None →
  output_dir ∈ dirs st ∨ output_dir ∈ dom (files st)
  ∨ makedirs_error w output_dir = None →
  listdir w images_dir = Ok entries →
  (∀ file, file ∈ entries →
     ¬ ∃ ext, ext ∈ image_extensions ∧ ext `suffix_of` lower file) →
  (main w st).1 = Ok ()
  ∧ console (main w st).2
    = console st ++ [connected_notice; no_image_notice]
  ∧ files (main w st).2 = files st
  ∧ calls (main w st).2 = calls st.
Proof.
  intros Hc Hm Hd Hl Hnone. unfold main, try_except.
  rewrite main_until_listing by done. rewrite Hl.
  rewrite (discover_none _ Hnone). rewrite bool_decide_eq_true_2 by done.
  rewrite print_run. cbn [fst snd console dirs files calls].
  by rewrite <- app_assoc.
Qed.

Lemma no_image_world_has_no_image file :
  file ∈ [lit "notes.txt"; lit "jpg"] →
  ¬ ∃ ext, ext ∈ image_extensions ∧ ext `suffix_of` lower file.
Proof.
  intros Hin Hex. apply is_image_name_spec in Hex.
  apply elem_of_cons in Hin as [->|Hin]; [discriminate Hex|].
  apply elem_of_cons in Hin as [->|Hin]; [discriminate Hex|].
  by apply elem_of_nil in Hin.
Defined.

Lemma no_image_found_ends_normally_witness :
  (main no_image_world fresh).1 = Ok ()
  ∧ console (main no_image_world fresh).2 = [connected_notice; no_image_notice]
  ∧ files (main no_image_world fresh).2 = ∅
  ∧ calls (main no_image_world fresh).2 = 0%nat.
Proof.
  apply (no_image_found_ends_normally no_image_world fresh
           [lit "notes.txt"; lit "jpg"]).
  - exact sample_world_has_credential.
  - reflexivity.
  - right. right. reflexivity.
  - reflexivity.
  - exact no_image_world_has_no_image.
Defined.

(** C10: the output directory exists once the input directory is
    listed.  A run that then finds no image, and a run whose listing
    fails, both end with the output directory added to the directories
    that existed and with every file as it was. *)
Theorem output_directory_is_created_before_discovery
    (w : world) (st : state) :
  has_credential w → models_list w = None →
  output_dir ∉ dom (files st) →
  output_dir ∈ dirs st ∨ makedirs_error w output_dir = None →
  (∀ entries,
     listdir w images_dir = Ok entries →
     discover images_dir entries = [] →
     dirs (main w st).2 = {[output_dir]} ∪ dirs st
     ∧ files (main w st).2 = files st)
  ∧ (∀ e,
       listdir w images_dir = Raise e →
       dirs (main w st).2 = {[output_dir]} ∪ dirs st
       ∧ files (main w st).2 = files st
       ∧ console (main w st).2
         = console st
           ++ [connected_notice; lit "An error occurred: " ++ exn_str e]).
Proof.
  intros Hc Hm Hf Hd. split.
  - intros entries Hl Hnone. unfold main, try_except.
    rewrite main_until_listing; [|done|done|tauto]. rewrite Hl, Hnone.
    rewrite bool_decide_eq_true_2 by done.
    rewrite print_run. cbn [fst snd console dirs files calls].
    by rewrite bool_decide_eq_false_2.
  - intros e Hl. unfold main, try_except.
    rewrite main_until_listing; [|done|done|tauto]. rewrite Hl.
    rewrite print_run. cbn [fst snd console dirs files calls].
    rewrite bool_decide_eq_false_2 by done. by rewrite <- app_assoc.
Qed.

Lemma output_directory_is_created_before_discovery_witness :
  dirs (main no_image_world fresh).2 = {[output_dir]} ∪ ∅
  ∧ files (main no_image_world fresh).2 = ∅.
Proof.
  refine (proj1 (output_directory_is_created_before_discovery
                   no_image_world fresh sample_world_has_credential eq_refl _ _)
            [lit "notes.txt"; lit "jpg"] eq_refl eq_refl).
  - apply not_elem_of_empty.
  - right. reflexivity.
Defined.

(** ** Checks on concrete inputs *)

Section Checks.

Example split_example :
  split (lit " a  bc d ") = [lit "a"; lit "bc"; lit "d"].
Proof. reflexivity. Qed.

Example strip_example : strip (lit "  a b " ++ [10]) = lit "a b".
Proof. reflexivity. Qed.

Example sort_example :
  sort [lit "images/c.bmp"; lit "images/a.jpg"; lit "images/b.png"]
  = [lit "images/a.jpg"; lit "images/b.png"; lit "images/c.bmp"].
Proof. vm_compute. reflexivity. Qed.

Example str_of_nat_example : str_of_nat 13 = lit "13".
Proof. vm_compute. reflexivity. Qed.

Example join_example :
  Path.join (lit "images") (lit "a.jpg") = lit "images/a.jpg".
Proof. reflexivity. Qed.

Example basename_example :
  Path.basename (lit "images/sub/a.jpg") = lit "a.jpg".
Proof. reflexivity. Qed.

Example dirname_example :
  Path.dirname (lit "extracted_text/summary_1.txt") = lit "extracted_text".
Proof. reflexivity. Qed.

Example is_image_name_examples :
  is_image_name <$> [lit "Photo.JPeG"; lit "a.jpg.txt"; lit ".tif"; lit "jpg"]
  = [true; false; true; false].
Proof. reflexivity. Qed.

Example thumbnail_example :
  PIL.thumbnail Float.binary64 8192 8192
    {| mode := lit "RGB"; width := 10000; height := 5000 |}
  = {| mode := lit "RGB"; width := 8192; height := 4096 |}.
Proof. vm_compute. reflexivity. Qed.

Example thumbnail_example_tall :
  PIL.thumbnail Float.binary64 8192 8192
    {| mode := lit "RGB"; width := 3000; height := 9000 |}
  = {| mode := lit "RGB"; width := 2731; height := 8192 |}.
Proof. vm_compute. reflexivity. Qed.

Example thumbnail_example_thin :
  PIL.thumbnail Float.binary64 8192 8192
    {| mode := lit "RGB"; width := 100000; height := 1 |}
  = {| mode := lit "RGB"; width := 8192; height := 1 |}.
Proof. vm_compute. reflexivity. Qed.

(* Where the two candidates are equally near over the rationals, the
   doubles decide: 22528x15 becomes 8192x6, as in Pillow. *)
Example thumbnail_example_tie :
  PIL.thumbnail Float.binary64 8192 8192
    {| mode := lit "RGB"; width := 22528; height := 15 |}
  = {| mode := lit "RGB"; width := 8192; height := 6 |}
  ∧ PIL.thumbnail Float.exact 8192 8192
      {| mode := lit "RGB"; width := 22528; height := 15 |}
    = {| mode := lit "RGB"; width := 8192; height := 5 |}.
Proof. split; vm_compute; reflexivity. Qed.

Example encode_example :
  encode_image_to_base64 sample_world (lit "images/c.bmp")
  = Ok {| decoded := {| mode := lit "RGB"; width := 8192; height := 4096 |} |}.
Proof. vm_compute. reflexivity. Qed.

Example save_jpeg_refuses_modes :
  PIL.save_jpeg {| mode := lit "RGBA"; width := 10; height := 10 |}
  = Raise {| exn_class := lit "OSError";
             exn_str := lit "cannot write mode RGBA as JPEG" |}.
Proof. vm_compute. reflexivity. Qed.

Example sample_run_console :
  console (main sample_world fresh).2
  = [ connected_notice;
      lit "Processing 3 images...";
      lit "Output will be saved to: extracted_text/extracted_text_20240102_030400.txt";
      lit "Processing 1/3: B.PNG";
      lit "Processing 2/3: a.jpg";
      lit "Processing 3/3: c.bmp";
      nl ++ lit "Text extraction completed!";
      lit "Results saved to: extracted_text/extracted_text_20240102_030400.txt";
      lit "Summary saved to: extracted_text/summary_20240102_030400.txt" ].
Proof. vm_compute. reflexivity. Qed.

Example sample_run_summary :
  files (main sample_world fresh).2
    !! lit "extracted_text/summary_20240102_030400.txt"
  = Some (concat
      [ lit "EXTRACTION SUMMARY" ++ nl;
        times 61 50 ++ nl;
        lit "Date: 20240102_030402" ++ nl;
        lit "Images processed: 3" ++ nl ++ nl;
        lit "1. B.PNG" ++ nl;
        lit "   Words: 7, Characters: 57" ++ nl;
        lit "   Preview: Error processing images/B.PNG: cannot identify image file..."
          ++ nl ++ nl;
        lit "2. a.jpg" ++ nl;
        lit "   Words: 3, Characters: 13" ++ nl;
        lit "   Preview: " ++ example_text ++ lit "..." ++ nl ++ nl;
        lit "3. c.bmp" ++ nl;
        lit "   Words: 3, Characters: 13" ++ nl;
        lit "   Preview: " ++ example_text ++ lit "..." ++ nl ++ nl ]).
Proof. vm_compute. reflexivity. Qed.

Example sample_run_calls : calls (main sample_world fresh).2 = 4%nat.
Proof. vm_compute. reflexivity. Qed.

(* A text the codec refuses ends the batch at its write: the report
   stops after the rule of the first block, no summary is written, and
   the one call made is the only one. *)
Example surrogate_run :
  main surrogate_answer_world fresh
  = (Ok (),
     {| console :=
          [ connected_notice;
            lit "Processing 1 images...";
            lit "Output will be saved to: extracted_text/extracted_text_20240102_030400.txt";
            lit "Processing 1/1: a.jpg";
            lit "An error occurred: 'utf-8' codec can't encode character '\udc80' in position 2: surrogates not allowed" ];
        dirs := {[ lit "extracted_text" ]};
        files :=
          {[ lit "extracted_text/extracted_text_20240102_030400.txt" :=
               concat (report_header (lit "20240102_030401") 1)
               ++ lit "IMAGE 1: a.jpg" ++ nl ++ times 45 60 ++ nl ]};
        calls := 1 |}).
Proof. vm_compute. reflexivity. Qed.

End Checks.

(** * Further properties *)

(** ** What a run may change *)

Section Frame.

Context (w : world).

#[local] Instance run_extends_preorder : PreOrder (run_extends w).
Proof.
  split.
  - intros st. unfold run_extends.
    split_and!; [done|done|done|apply union_subseteq_r|done|lia].
  - intros s1 s2 s3 (F1 & D1 & A1 & B1 & C1 & N1) (F2 & D2 & A2 & B2 & C2 & N2).
    unfold run_extends. split_and!.
    + intros p Ho Hs. by rewrite F2, F1.
    + by etrans.
    + by etrans.
    + etrans; [done|]. intros d Hd. apply elem_of_union in Hd as [Hd|Hd].
      * by apply elem_of_union_l.
      * by apply B1.
    + by etrans.
    + lia.
Qed.

Lemma keeps_ret {A} (a : A) : keeps (run_extends w) (mret a).
Proof. intros st. reflexivity. Qed.

Lemma keeps_lift {A} (r : result A) : keeps (run_extends w) (lift r).
Proof. intros st. reflexivity. Qed.

Lemma keeps_raise {A} cls msg : keeps (run_extends w) (@raise A cls msg).
Proof. intros st. reflexivity. Qed.

Lemma keeps_bind {A B} (m : M A) (k : A → M B) :
  keeps (run_extends w) m → (∀ a, keeps (run_extends w) (k a)) →
  keeps (run_extends w) (m ≫= k).
Proof.
  intros Hm Hk st. unfold mbind, M_bind. specialize (Hm st).
  destruct (m st) as [[a|e] st']; cbn [snd] in *; [|done].
  etrans; [done|]. apply Hk.
Qed.

Lemma keeps_try_except {A} (body : M A) (handler : exn → M A) :
  keeps (run_extends w) body → (∀ e, keeps (run_extends w) (handler e)) →
  keeps (run_extends w) (try_except body handler).
Proof.
  intros Hm Hk st. unfold try_except. specialize (Hm st).
  destruct (body st) as [[a|e] st']; cbn [snd] in *; [done|].
  etrans; [done|]. apply Hk.
Qed.

Lemma keeps_print s : keeps (run_extends w) (print s).
Proof.
  intros st. unfold print, run_extends. cbv zeta.
  cbn [console dirs files calls snd].
  split_and!; first [done | apply union_subseteq_r | by apply prefix_app_r].
Qed.

Lemma keeps_path_exists p : keeps (run_extends w) (path_exists p).
Proof. intros st. reflexivity. Qed.

Lemma keeps_makedirs : keeps (run_extends w) (makedirs w output_dir).
Proof.
  intros st. unfold makedirs. destruct (makedirs_error w output_dir); [reflexivity|].
  unfold run_extends. cbv zeta. cbn [console dirs files calls snd].
  split_and!; first [done | apply union_subseteq_r].
Qed.

Lemma keeps_chat b : keeps (run_extends w) (chat_completions_create w b).
Proof.
  intros st. unfold chat_completions_create, run_extends. cbv zeta. cbn [console dirs files calls].
  split_and!; first [done | apply union_subseteq_r | cbn; lia].
Qed.

Lemma keeps_open_w p : is_output w p → keeps (run_extends w) (open_w p).
Proof.
  intros Hp st. unfold open_w.
  destruct (bool_decide (p ∈ dirs st)); [reflexivity|].
  destruct (_ || _);
    [|destruct (bool_decide (Path.dirname p ∈ dom (files st))); reflexivity].
  unfold run_extends. cbv zeta. cbn [console dirs files calls snd].
  split_and!; [|rewrite dom_insert_L|..];
    first [done | apply union_subseteq_r | idtac].
  intros q Ho Hs. apply lookup_insert_ne. intros E.
  unfold is_output in Hp. destruct Hp; congruence.
Qed.

Lemma keeps_write f s : is_output w f → keeps (run_extends w) (write f s).
Proof.
  intros Hp st. unfold write.
  destruct (Codec.encodable s); [|reflexivity].
  unfold run_extends. cbv zeta. cbn [console dirs files calls snd].
  split_and!; [|rewrite dom_alter_L|..];
    first [done | apply union_subseteq_r | idtac].
  intros q Ho Hs. apply lookup_alter_ne. intros E.
  unfold is_output in Hp. destruct Hp; congruence.
Qed.

Lemma keeps_writes f chunks :
  is_output w f → keeps (run_extends w) (mapM (write f) chunks).
Proof.
  intros Hp. induction chunks as [|x chunks IH]; cbn [mapM].
  - apply keeps_ret.
  - apply keeps_bind; [by apply keeps_write|]. intros ?.
    apply keeps_bind; [done|]. intros u. apply keeps_ret.
Qed.

Lemma keeps_extract p : keeps (run_extends w) (extract_text_from_image w p).
Proof.
  intros st. rewrite extract_text_from_image_run. unfold run_extends.
  cbv zeta. cbn [console dirs files calls snd]. unfold extraction_calls.
  split_and!;
    first [done | apply union_subseteq_r
           | destruct (encode_image_to_base64 w p); lia].
Qed.

Lemma keeps_report_loop f total i l :
  is_output w f → keeps (run_extends w) (report_loop w f total i l).
Proof.
  intros Hp. revert i. induction l as [|p l IH]; intros i; cbn [report_loop].
  - apply keeps_ret.
  - apply keeps_bind; [apply keeps_print|]. intros ?.
    apply keeps_bind; [apply keeps_extract|]. intros t.
    apply keeps_bind; [by apply keeps_writes|]. intros ?. apply IH.
Qed.

Lemma keeps_summary_loop f i l :
  is_output w f → keeps (run_extends w) (summary_loop w f i l).
Proof.
  intros Hp. revert i. induction l as [|p l IH]; intros i; cbn [summary_loop].
  - apply keeps_ret.
  - apply keeps_bind; [apply keeps_extract|]. intros t.
    apply keeps_bind; [by apply keeps_writes|]. intros ?. apply IH.
Qed.

Lemma open_w_returns_its_path p st f st' : open_w p st = (Ok f, st') → f = p.
Proof.
  unfold open_w. destruct (bool_decide _); [done|].
  destruct (_ || _); [|by destruct (bool_decide _)]. by intros [= <- _].
Qed.

(* [open_w p] followed by a use of the handle it returns. *)
Lemma keeps_with_open {A} p (k : pystr → M A) :
  is_output w p → keeps (run_extends w) (k p) →
  keeps (run_extends w) (open_w p ≫= k).
Proof.
  intros Hp Hk st. unfold mbind, M_bind.
  pose proof (keeps_open_w p Hp st) as Ho.
  destruct (open_w p st) as [[f|e] st'] eqn:E; cbn [snd] in *; [|done].
  apply open_w_returns_its_path in E as ->.
  etrans; [done|]. apply Hk.
Qed.

Lemma keeps_process_images l : keeps (run_extends w) (process_images w l).
Proof.
  unfold process_images.
  apply keeps_bind; [apply keeps_print|]. intros ?.
  apply keeps_bind; [apply keeps_print|]. intros ?.
  apply keeps_with_open; [by left|].
  apply keeps_bind; [apply keeps_writes; by left|]. intros ?.
  apply keeps_bind; [apply keeps_report_loop; by left|]. intros ?.
  apply keeps_bind; [apply keeps_print|]. intros ?.
  apply keeps_bind; [apply keeps_print|]. intros ?.
  apply keeps_with_open; [by right|].
  apply keeps_bind; [apply keeps_writes; by right|]. intros ?.
  apply keeps_bind; [apply keeps_summary_loop; by right|]. intros ?.
  apply keeps_print.
Qed.

Lemma keeps_check_environment : keeps (run_extends w) (check_environment w).
Proof.
  unfold check_environment. destruct (_ || _); [apply keeps_raise|].
  apply keeps_try_except.
  - apply keeps_bind; [apply keeps_lift|]. intros ?. apply keeps_print.
  - intros e. apply keeps_raise.
Qed.

Lemma keeps_main : keeps (run_extends w) (main w).
Proof.
  unfold main. apply keeps_try_except; [|intros e; apply keeps_print].
  apply keeps_bind; [apply keeps_check_environment|]. intros ?.
  apply keeps_bind; [apply keeps_path_exists|]. intros there.
  apply keeps_bind.
  { destruct (negb there); [apply keeps_makedirs|apply keeps_ret]. }
  intros ?. apply keeps_bind; [apply keeps_lift|]. intros entries.
  destruct (bool_decide _); [apply keeps_print|apply keeps_process_images].
Qed.

Lemma main_returns st : (main w st).1 = Ok ().
Proof.
  unfold main, try_except.
  match goal with |- (match ?b with _ => _ end).1 = _ => destruct b as [[[]|e] st'] end;
    done.
Qed.

End Frame.

(** X1: main never raises, and whatever happens it only creates or
    rewrites its two output files, only adds the output directory, only
    appends to the console and only increases the call counter: no
    other file changes, no file or directory disappears. *)
Theorem main_changes_only_its_outputs (w : world) (st : state) :
  let timestamp := now_strftime w 0 stamp_format in
  (main w st).1 = Ok ()
  ∧ (∀ p, p ≠ output_file timestamp → p ≠ summary_file timestamp →
          files (main w st).2 !! p = files st !! p)
  ∧ dom (files st) ⊆ dom (files (main w st).2)
  ∧ dirs st ⊆ dirs (main w st).2
  ∧ dirs (main w st).2 ⊆ {[output_dir]} ∪ dirs st
  ∧ console st `prefix_of` console (main w st).2
  ∧ (calls st ≤ calls (main w st).2)%nat.
Proof.
  intros timestamp. split; [apply main_returns|]. apply (keeps_main w st).
Qed.

(* A report name never equals a summary name, and the names are
   injective in the timestamp. *)
Lemma output_names (ts1 ts2 : pystr) :
  output_file ts1 ≠ summary_file ts2
  ∧ (output_file ts1 = output_file ts2 → ts1 = ts2)
  ∧ (summary_file ts1 = summary_file ts2 → ts1 = ts2).
Proof.
  rewrite !output_file_eq, !summary_file_eq. split_and!.
  - intros H. discriminate H.
  - intros H. apply app_inv_head in H. injection H as H.
    by apply app_inv_tail in H.
  - intros H. apply app_inv_head in H. injection H as H.
    by apply app_inv_tail in H.
Qed.

(** X2: a run with another timestamp leaves the report and the summary
    of an earlier run as they were. *)
Theorem later_run_keeps_earlier_outputs (w1 w2 : world) (st : state) :
  now_strftime w1 0 stamp_format ≠ now_strftime w2 0 stamp_format →
  let ts1 := now_strftime w1 0 stamp_format in
  let st1 := (main w1 st).2 in
  files (main w2 st1).2 !! output_file ts1 = files st1 !! output_file ts1
  ∧ files (main w2 st1).2 !! summary_file ts1 = files st1 !! summary_file ts1.
Proof.
  intros Hts ts1 st1.
  destruct (keeps_main w2 st1) as (Hf & _).
  destruct (output_names ts1 (now_strftime w2 0 stamp_format))
    as (H1 & H2 & H3).
  destruct (output_names (now_strftime w2 0 stamp_format) ts1)
    as (H4 & _ & _).
  split; apply Hf; auto.
Qed.

Lemma check_environment_unreachable w st e :
  has_credential w → models_list w = Some e →
  check_environment w st
  = (Raise {| exn_class := lit "Exception";
              exn_str := lit "Failed to connect to OpenAI API: " ++ exn_str e |},
     st).
Proof.
  intros (key & Hk & Hne) Hm. unfold check_environment. rewrite Hk, Hm.
  rewrite bool_decide_eq_false_2 by done.
  rewrite bool_decide_eq_false_2 by congruence.
  done.
Qed.

(** X3: when the connectivity probe fails, main prints one notice,
    "An error occurred: Failed to connect to OpenAI API: ..." with the
    probe's message, and returns: nothing is created, nothing is
    listed, no image is sent. *)
Theorem unreachable_service_aborts_the_run (w : world) (st : state) (e : exn) :
  has_credential w → models_list w = Some e →
  main w st
  = (Ok (),
     {| console :=
          console st
          ++ [lit "An error occurred: Failed to connect to OpenAI API: "
              ++ exn_str e];
        dirs := dirs st; files := files st; calls := calls st |}).
Proof.
  intros Hc Hm. unfold main, try_except.
  rewrite (bind_raise _ _ _ _ _ (check_environment_unreachable w st e Hc Hm)).
  rewrite print_run. done.
Qed.

Lemma unreachable_service_aborts_the_run_witness :
  main unreachable_world fresh
  = (Ok (),
     {| console :=
          [] ++ [lit "An error occurred: Failed to connect to OpenAI API: "
                 ++ exn_str connection_error];
        dirs := ∅; files := ∅; calls := 0 |}).
Proof.
  apply (unreachable_service_aborts_the_run unreachable_world fresh
           connection_error sample_world_has_credential eq_refl).
Defined.

(** X4: when the output directory is missing and cannot be created,
    main prints the error of os.makedirs after the connection notice
    and returns before the input directory is listed: no file is
    written and no image is sent. *)
Theorem failed_makedirs_aborts_the_run (w : world) (st : state) (e : exn) :
  has_credential w → models_list w = None →
  output_dir ∉ dirs st → output_dir ∉ dom (files st) →
  makedirs_error w output_dir = Some e →
  main w st
  = (Ok (),
     {| console :=
          console st
          ++ [connected_notice; lit "An error occurred: " ++ exn_str e];
        dirs := dirs st; files := files st; calls := calls st |}).
Proof.
  intros Hc Hm Hd Hf He. unfold main, try_except.
  rewrite (bind_run _ _ _ _ _ (check_environment_ok w st Hc Hm)).
  unfold path_exists at 1. unfold mbind at 1, M_bind at 1.
  cbn [console dirs files calls].
  rewrite (bool_decide_eq_false_2 _ Hd), (bool_decide_eq_false_2 _ Hf).
  cbn [orb negb].
  unfold makedirs at 1. unfold mbind at 1, M_bind at 1. rewrite He.
  rewrite print_run. cbn [console dirs files calls].
  by rewrite <- app_assoc.
Qed.

Lemma failed_makedirs_aborts_the_run_witness :
  main read_only_world fresh
  = (Ok (),
     {| console :=
          [] ++ [connected_notice;
                 lit "An error occurred: " ++ exn_str permission_denied];
        dirs := ∅; files := ∅; calls := 0 |}).
Proof.
  apply (failed_makedirs_aborts_the_run read_only_world fresh permission_denied
           sample_world_has_credential eq_refl).
  - apply not_elem_of_empty.
  - apply not_elem_of_empty.
  - reflexivity.
Defined.

Lemma open_w_under_a_file p st :
  p ∉ dirs st → Path.dirname p ≠ [] → Path.dirname p ∉ dirs st →
  Path.dirname p ∈ dom (files st) →
  open_w p st
  = (Raise {| exn_class := lit "NotADirectoryError";
              exn_str := lit "[Errno 20] Not a directory: " ++ quoted p |},
     st).
Proof.
  intros Hp Hn Hd Hf. unfold open_w.
  by rewrite (bool_decide_eq_false_2 _ Hp), (bool_decide_eq_false_2 _ Hn),
    (bool_decide_eq_false_2 _ Hd), (bool_decide_eq_true_2 _ Hf).
Qed.

Lemma time_stamp_has_no_sep ts : is_time_stamp ts → Path.sep ∉ ts.
Proof.
  intros Hts Hin. unfold is_time_stamp in Hts. rewrite Forall_forall in Hts.
  apply Hts in Hin. unfold Path.sep in Hin. lia.
Qed.

(** X5: os.path.exists is also true for a regular file.  When the
    output directory's name is taken by a file, os.makedirs is skipped
    and, once images are found, opening the report fails with
    NotADirectoryError: main prints the two progress notices and
    "An error occurred: [Errno 20] Not a directory: " followed by the
    quoted path of the report, and returns with no file written and no
    image sent. *)
Theorem output_name_taken_by_a_file
    (w : world) (st : state) (entries : list pystr) :
  let ts := now_strftime w 0 stamp_format in
  has_credential w → models_list w = None →
  output_dir ∈ dom (files st) → output_dir ∉ dirs st →
  listdir w images_dir = Ok entries →
  discover images_dir entries ≠ [] →
  is_time_stamp ts → output_file ts ∉ dirs st →
  main w st
  = (Ok (),
     {| console :=
          console st
          ++ [connected_notice;
              lit "Processing "
              ++ str_of_nat (length (discover images_dir entries))
              ++ lit " images...";
              lit "Output will be saved to: " ++ output_file ts;
              lit "An error occurred: [Errno 20] Not a directory: '"
              ++ output_file ts ++ lit "'"];
        dirs := dirs st; files := files st; calls := calls st |}).
Proof.
  intros ts Hc Hm Hf Hd Hl Hne Hts Ho.
  apply time_stamp_has_no_sep in Hts.
  unfold main, try_except.
  rewrite main_until_listing; [|done|done|tauto]. rewrite Hl.
  rewrite (bool_decide_eq_false_2 _ Hne), (bool_decide_eq_true_2 _ Hf).
  unfold process_images. fold ts. rewrite sort_length.
  rewrite (bind_run _ _ _ _ _ (print_run _ _)).
  rewrite (bind_run _ _ _ _ _ (print_run _ _)).
  cbn [console dirs files calls].
  assert (Path.dirname (output_file ts) = output_dir) as Ed.
  { rewrite output_file_eq. by apply dirname_in_output_dir, sep_not_in_name. }
  erewrite bind_raise; last first.
  { apply open_w_under_a_file; cbn [dirs files]; rewrite ?Ed; done. }
  rewrite print_run. cbn [console dirs files calls exn_str].
  unfold quoted. rewrite <- !app_assoc. done.
Qed.

Lemma name_taken_has_no_directory : output_dir ∉ dirs name_taken.
Proof. apply not_elem_of_empty. Defined.

Lemma output_name_taken_by_a_file_witness :
  main sample_world name_taken
  = (Ok (),
     {| console :=
          [] ++ [connected_notice;
                 lit "Processing "
                 ++ str_of_nat (length (discover images_dir
                      [lit "c.bmp"; lit "notes.txt"; lit "B.PNG"; lit "a.jpg"]))
                 ++ lit " images...";
                 lit "Output will be saved to: "
                 ++ output_file (now_strftime sample_world 0 stamp_format);
                 lit "An error occurred: [Errno 20] Not a directory: '"
                 ++ output_file (now_strftime sample_world 0 stamp_format)
                 ++ lit "'"];
        dirs := ∅;
        files := {[ lit "extracted_text" := lit "notes" ]};
        calls := 0 |}).
Proof.
  apply (output_name_taken_by_a_file sample_world name_taken
           [lit "c.bmp"; lit "notes.txt"; lit "B.PNG"; lit "a.jpg"]
           sample_world_has_credential eq_refl).
  - apply elem_of_dom. exists (lit "notes"). apply lookup_singleton_eq.
  - exact name_taken_has_no_directory.
  - reflexivity.
  - vm_compute; discriminate.
  - apply (bool_decide_unpack _). by vm_compute.
  - apply not_elem_of_empty.
Defined.

Lemma later_run_keeps_earlier_outputs_witness :
  let ts1 := now_strftime sample_world 0 stamp_format in
  let st1 := (main sample_world fresh).2 in
  files (main later_world st1).2 !! output_file ts1 = files st1 !! output_file ts1
  ∧ files (main later_world st1).2 !! summary_file ts1
    = files st1 !! summary_file ts1.
Proof.
  apply (later_run_keeps_earlier_outputs sample_world later_world fresh).
  intros H. vm_compute in H. discriminate H.
Defined.

(** ** Counting remote calls *)

Lemma calls_after_counts w n l :
  calls_after w n l
  = (n + length (filter (λ p, preprocesses w p = true) l))%nat.
Proof.
  revert n. induction l as [|p l IH]; intros n; cbn [calls_after].
  - rewrite filter_nil. simpl. lia.
  - rewrite IH, filter_cons. unfold extraction_calls, preprocesses.
    destruct (encode_image_to_base64 w p).
    + rewrite decide_True by done. simpl. lia.
    + rewrite decide_False by done. lia.
Qed.

(** X6: a run that finds images and meets no surrogate issues exactly
    two remote calls for every discovered image whose preprocessing
    succeeds, one for the report and one for the summary, and none for
    the others. *)
Theorem two_remote_calls_per_image
    (w : world) (st : state) (entries : list pystr) :
  let ts := now_strftime w 0 stamp_format in
  has_credential w → models_list w = None →
  output_dir ∈ dirs st
  ∨ ((output_dir ∉ dom (files st)) ∧ makedirs_error w output_dir = None) →
  listdir w images_dir = Ok entries →
  discover images_dir entries ≠ [] →
  Path.sep ∉ ts → output_file ts ∉ dirs st → summary_file ts ∉ dirs st →
  encodable_run w entries →
  calls (main w st).2
  = (calls st
     + 2 * length (filter (λ p, preprocesses w p = true)
                     (discover images_dir entries)))%nat.
Proof.
  intros ts Hc Hm Hd Hl Hne Hts Ho Hs He.
  rewrite (main_with_images w st entries Hc Hm Hd Hl Hne Hts Ho Hs He).
  cbn [snd calls]. rewrite !calls_after_counts.
  assert (filter (λ p, preprocesses w p = true) (sort (discover images_dir entries))
          ≡ₚ filter (λ p, preprocesses w p = true) (discover images_dir entries))
    as Hp by (by rewrite sort_Permutation).
  rewrite (Permutation_length Hp). lia.
Qed.

Lemma two_remote_calls_per_image_witness :
  calls (main sample_world fresh).2
  = (0 + 2 * length (filter (λ p, preprocesses sample_world p = true)
                       (discover images_dir
                          [lit "c.bmp"; lit "notes.txt"; lit "B.PNG"; lit "a.jpg"])))%nat.
Proof.
  apply (two_remote_calls_per_image sample_world fresh
           [lit "c.bmp"; lit "notes.txt"; lit "B.PNG"; lit "a.jpg"]
           sample_world_has_credential eq_refl).
  - right. split; [apply not_elem_of_empty | reflexivity].
  - reflexivity.
  - vm_compute; discriminate.
  - apply (bool_decide_eq_false_1 _). vm_compute. reflexivity.
  - apply not_elem_of_empty.
  - apply not_elem_of_empty.
  - exact sample_world_is_encodable.
Defined.

(** X7: extract_text_from_image touches neither the console nor the
    file system; it issues one remote call when preprocessing succeeds
    and none when it fails, whatever the service then answers. *)
Theorem extract_text_from_image_issues_at_most_one_call
    (w : world) (image_path : pystr) (st : state) :
  console (extract_text_from_image w image_path st).2 = console st
  ∧ dirs (extract_text_from_image w image_path st).2 = dirs st
  ∧ files (extract_text_from_image w image_path st).2 = files st
  ∧ calls (extract_text_from_image w image_path st).2
    = if preprocesses w image_path then S (calls st) else calls st.
Proof.
  rewrite extract_text_from_image_run. cbn [snd console dirs files calls].
  split_and!; [done..|]. unfold extraction_calls, preprocesses.
  by destruct (encode_image_to_base64 w image_path).
Qed.

(** ** Texts of the report and of the summary *)

Lemma texts_from_failure w n l k p e :
  l !! k = Some p → encode_image_to_base64 w p = Raise e →
  texts_from w n l !! k = Some (error_text p e).
Proof.
  revert n k. induction l as [|q l IH]; intros n k Hk He; [done|].
  destruct k as [|k]; cbn [texts_from].
  - injection Hk as ->. cbn. unfold extraction_text. by rewrite He.
  - by apply IH.
Qed.

(** X9: a failure on one image does not stop the batch.  In a run that
    meets no surrogate, the report and the summary are the texts
    spelled out by expected_report and expected_summary, with one block
    per matching entry of the listing, and the block of an image whose
    preprocessing fails carries the text
    "Error processing {path}: {message}" in both files. *)
Theorem failed_image_gets_an_error_block
    (w : world) (st : state) (entries : list pystr) :
  let ts := now_strftime w 0 stamp_format in
  let sorted := sort (discover images_dir entries) in
  let n := length (filter (λ f, is_image_name f = true) entries) in
  has_credential w → models_list w = None →
  output_dir ∈ dirs st
  ∨ ((output_dir ∉ dom (files st)) ∧ makedirs_error w output_dir = None) →
  listdir w images_dir = Ok entries →
  discover images_dir entries ≠ [] →
  Path.sep ∉ ts → output_file ts ∉ dirs st → summary_file ts ∉ dirs st →
  encodable_run w entries →
  ∃ texts1 texts2,
    length texts1 = n ∧ length texts2 = n ∧ length sorted = n
    ∧ (main w st).1 = Ok ()
    ∧ files (main w st).2 !! output_file ts
      = Some (expected_report (now_strftime w 1 date_format) sorted texts1)
    ∧ files (main w st).2 !! summary_file ts
      = Some (expected_summary (now_strftime w 2 date_format) sorted texts2)
    ∧ ∀ k p e,
        sorted !! k = Some p → encode_image_to_base64 w p = Raise e →
        texts1 !! k = Some (lit "Error processing " ++ p ++ lit ": " ++ exn_str e)
        ∧ texts2 !! k = Some (lit "Error processing " ++ p ++ lit ": " ++ exn_str e).
Proof.
  intros ts sorted n Hc Hm Hd Hl Hne Hts Ho Hs He.
  assert (length sorted = n) as En.
  { unfold sorted, n. by rewrite sort_length, discover_filter, length_fmap. }
  exists (texts_from w (calls st) sorted),
         (texts_from w (calls_after w (calls st) sorted) sorted).
  rewrite (main_with_images w st entries Hc Hm Hd Hl Hne Hts Ho Hs He).
  cbn [fst snd files]. fold ts. fold sorted. rewrite !texts_from_length, En.
  split_and!; [done..| | |].
  - rewrite lookup_insert_ne by (by apply not_eq_sym, output_file_ne_summary_file).
    by rewrite lookup_insert_eq.
  - by rewrite lookup_insert_eq.
  - intros k p e Hk Hf. split; by apply texts_from_failure.
Qed.

Lemma failed_image_gets_an_error_block_witness :
  let entries := [lit "c.bmp"; lit "notes.txt"; lit "B.PNG"; lit "a.jpg"] in
  let ts := now_strftime sample_world 0 stamp_format in
  let sorted := sort (discover images_dir entries) in
  let n := length (filter (λ f, is_image_name f = true) entries) in
  ∃ texts1 texts2,
    length texts1 = n ∧ length texts2 = n ∧ length sorted = n
    ∧ (main sample_world fresh).1 = Ok ()
    ∧ files (main sample_world fresh).2 !! output_file ts
      = Some (expected_report (now_strftime sample_world 1 date_format)
                sorted texts1)
    ∧ files (main sample_world fresh).2 !! summary_file ts
      = Some (expected_summary (now_strftime sample_world 2 date_format)
                sorted texts2)
    ∧ ∀ k p e,
        sorted !! k = Some p →
        encode_image_to_base64 sample_world p = Raise e →
        texts1 !! k = Some (lit "Error processing " ++ p ++ lit ": " ++ exn_str e)
        ∧ texts2 !! k = Some (lit "Error processing " ++ p ++ lit ": " ++ exn_str e).
Proof.
  apply (failed_image_gets_an_error_block sample_world fresh
           [lit "c.bmp"; lit "notes.txt"; lit "B.PNG"; lit "a.jpg"]
           sample_world_has_credential eq_refl).
  - right. split; [apply not_elem_of_empty | reflexivity].
  - reflexivity.
  - vm_compute; discriminate.
  - apply (bool_decide_eq_false_1 _). vm_compute. reflexivity.
  - apply not_elem_of_empty.
  - apply not_elem_of_empty.
  - exact sample_world_is_encodable.
Defined.

(** ** Preprocessing, continued *)

Section MorePreprocessing.

Local Open Scope Z_scope.

(** X10: whatever the colour mode of the input, the payload of a
    successful encode_image_to_base64 is an RGB image. *)
Theorem payload_is_always_rgb (w : world) (image_path : pystr) (b : jpeg_b64) :
  encode_image_to_base64 w image_path = Ok b →
  mode (decoded b) = lit "RGB".
Proof.
  unfold encode_image_to_base64, encode_image_to_base64_in.
  destruct (image_open w image_path) as [img|e]; [|done].
  set (rgb := if bool_decide (mode img ≠ lit "RGB")
              then PIL.convert (lit "RGB") img else img).
  assert (mode rgb = lit "RGB") as Hm.
  { unfold rgb. case_bool_decide as Hd; [done|].
    destruct (decide (mode img = lit "RGB")); [done|]. by destruct Hd. }
  cbv zeta.
  set (fit := if (max_size <? width rgb) || (max_size <? height rgb)
              then PIL.thumbnail Float.binary64 max_size max_size rgb
              else rgb).
  assert (mode fit = lit "RGB") as Hf.
  { unfold fit. destruct (_ || _); [by rewrite thumbnail_mode|done]. }
  fold fit. unfold PIL.save_jpeg.
  destruct ((width fit <=? 0) || (height fit <=? 0)); [done|].
  destruct (negb (bool_decide (mode fit ∈ PIL.jpeg_modes))); [done|].
  destruct ((65500 <? width fit) || (65500 <? height fit)); [done|].
  by intros [= <-].
Qed.

Lemma payload_is_always_rgb_witness :
  mode (decoded {| decoded := {| mode := lit "RGB"; width := 8192; height := 4096 |} |})
  = lit "RGB".
Proof.
  apply (payload_is_always_rgb sample_world (lit "images/c.bmp")).
  vm_compute. reflexivity.
Defined.


End MorePreprocessing.


(** ** Trimming and counting *)

Section Trimming.

Lemma count_runs_spaces ws inside :
  Forall (λ c, isspace c = true) ws → count_runs inside ws = 0%nat.
Proof.
  intros H. revert inside. induction H as [|c ws Hc _ IH]; intros inside; [done|].
  cbn [count_runs]. rewrite Hc. apply IH.
Qed.

Lemma count_runs_leading ws s inside :
  Forall (λ c, isspace c = true) ws → ws ≠ [] →
  count_runs inside (ws ++ s) = count_runs false s.
Proof.
  intros H. revert inside. induction H as [|c ws Hc Hws IH]; intros inside Hne; [done|].
  cbn [app count_runs]. rewrite Hc.
  destruct ws as [|d ws]; [done|]. by apply IH.
Qed.

Lemma count_runs_trailing s ws inside :
  Forall (λ c, isspace c = true) ws →
  count_runs inside (s ++ ws) = count_runs inside s.
Proof.
  intros H. revert inside. induction s as [|c s IH]; intros inside; cbn [app count_runs].
  - by apply count_runs_spaces.
  - destruct (isspace c); [apply IH|]. destruct inside; by rewrite IH.
Qed.

Lemma lstrip_fixed s :
  (∀ c, head s = Some c → isspace c = false) → lstrip s = s.
Proof.
  destruct s as [|c s]; [done|]. intros H. cbn [lstrip].
  by rewrite (H c eq_refl).
Qed.

Lemma strip_fixed s :
  (∀ c, head s = Some c → isspace c = false) →
  (∀ c, last s = Some c → isspace c = false) →
  strip s = s.
Proof.
  intros Hh Hl. unfold strip, rstrip. rewrite (lstrip_fixed s Hh).
  rewrite lstrip_fixed; [by rewrite reverse_involutive|].
  intros c. rewrite head_reverse. apply Hl.
Qed.

(** X12: trimming is idempotent, never lengthens a text and does not
    change its word count: the word count of the summary is the word
    count of the untrimmed answer. *)
Theorem strip_keeps_the_words (t : pystr) :
  strip (strip t) = strip t
  ∧ word_count (strip t) = word_count t
  ∧ (char_count (strip t) ≤ char_count t)%nat.
Proof.
  destruct (strip_trimmed t) as ((before & after & Ht & Hb & Ha) & Hh & Hl).
  split_and!.
  - by apply strip_fixed.
  - unfold word_count, split. rewrite !split_from_length.
    rewrite Ht at 2.
    destruct before as [|c before].
    + by rewrite app_nil_l, count_runs_trailing.
    + by rewrite count_runs_leading, count_runs_trailing.
  - unfold char_count. rewrite Ht at 2. rewrite !length_app. lia.
Qed.

Lemma strip_spaces ws : Forall (λ c, isspace c = true) ws → strip ws = [].
Proof.
  intros H. unfold strip, rstrip.
  assert (lstrip ws = []) as ->; [|done].
  induction H as [|c ws Hc _ IH]; [done|]. cbn [lstrip]. by rewrite Hc.
Qed.

(** X13: an answer made of white space only, the empty answer
    included, is returned as the empty string, and its summary line
    reports no word and no character. *)
Theorem blank_answer_gives_the_empty_text
    (w : world) (image_path : pystr) (st : state) (t : pystr) (i : nat) :
  answer w (calls st) image_path t →
  Forall (λ c, isspace c = true) t →
  (extract_text_from_image w image_path st).1 = Ok []
  ∧ summary_entry i image_path [] !! 1%nat
    = Some (lit "   Words: 0, Characters: 0" ++ nl).
Proof.
  intros Ht Hs. split; [|done].
  rewrite extract_text_from_image_run. cbn [fst].
  by rewrite (extraction_text_answer _ _ _ _ Ht), strip_spaces.
Qed.

Lemma blank_answer_gives_the_empty_text_witness :
  (extract_text_from_image blank_answer_world (lit "images/a.jpg") fresh).1 = Ok []
  ∧ summary_entry 1 (lit "images/a.jpg") [] !! 1%nat
    = Some (lit "   Words: 0, Characters: 0" ++ nl).
Proof.
  apply (blank_answer_gives_the_empty_text blank_answer_world
           (lit "images/a.jpg") fresh [32; 10; 9] 1).
  - by eapply (answered _ _ _ _ (answer_with (Some [32; 10; 9]))).
  - repeat constructor.
Defined.

(** X14: the preview of a summary entry shows the first 100
    characters of the text, the whole text when it is shorter, and the
    ellipsis is appended in both cases. *)
Theorem preview_shows_at_most_100_characters
    (i : nat) (image_path text : pystr) :
  ∃ shown,
    summary_entry i image_path text !! 2%nat
    = Some (lit "   Preview: " ++ shown ++ lit "..." ++ nl ++ nl)
    ∧ shown `prefix_of` text
    ∧ length shown = Nat.min 100 (length text)
    ∧ ((length text ≤ 100)%nat → shown = text).
Proof.
  exists (take 100 text). split_and!.
  - done.
  - apply prefix_take.
  - apply length_take.
  - intros Hle. by apply take_ge.
Qed.

End Trimming.

(** ** Names *)

Section Names.

(** X16: for an entry of the listing without a separator, the name
    shown in the report and in the summary is the entry itself:
    os.path.basename undoes os.path.join with the input directory. *)
Theorem basename_of_joined_entry (file : pystr) :
  Path.sep ∉ file →
  Path.join images_dir file = images_dir ++ [Path.sep] ++ file
  ∧ Path.basename (Path.join images_dir file) = file.
Proof.
  intros Hs.
  assert (Path.join images_dir file = images_dir ++ Path.sep :: file) as E.
  { unfold Path.join. destruct file as [|c file]; [done|].
    destruct (c =? Path.sep) eqn:Ec; [|done].
    apply N.eqb_eq in Ec as ->. destruct Hs. by left. }
  rewrite E. split; [done|]. by apply basename_after_sep.
Qed.

Lemma basename_of_joined_entry_witness :
  Path.join images_dir (lit "a.jpg") = images_dir ++ [Path.sep] ++ lit "a.jpg"
  ∧ Path.basename (Path.join images_dir (lit "a.jpg")) = lit "a.jpg".
Proof.
  apply (basename_of_joined_entry (lit "a.jpg")).
  apply (bool_decide_eq_false_1 _). reflexivity.
Defined.

End Names.
